(** * CFTest: a shallow embedding of [CFTest.py] and its properties

    The script fetches the published IPv4 ranges, expands them into
    candidate addresses, probes every address through
    [http://<ip>/cdn-cgi/trace] on a thread pool, stops once enough
    addresses matched, and writes a grouped, sorted report.

    Python [str] values are modelled by [string]: a character is its code
    point, code points range over 0..255.  Effects are explicit: every
    function returns the events it performed (prints, HTTP requests, pool
    operations, the file written) together with a value or the exception it
    raised.  What the environment decides (HTTP answers, the verdict of the
    [ipaddress] network parser, the order in which a [set] lists its
    elements, the order in which futures complete, what a worker reads
    from the stop flag, whether the report file can be opened) is a field
    of [World].  The thread pool is the library's: its scheduling is
    modelled apart, as a transition system driven by the events of the
    coordinator and the steps of the worker threads. *)

From Stdlib Require Import List String Ascii Bool Arith ZArith NArith Lia.
From Stdlib Require Import Permutation Sorted DecimalString.
Import ListNotations.

Local Open Scope string_scope.
Local Open Scope list_scope.

(** ** Python [str] methods used by the script *)

Module Str.

Definition code (c : ascii) : N := N_of_ascii c.

Definition in_range (lo hi : N) (c : ascii) : bool :=
  (N.leb lo (code c) && N.leb (code c) hi)%bool.

(** Line boundaries of [str.splitlines]: LF, VT, FF, CR, FS, GS, RS and
    NEL (the boundaries U+2028 and U+2029 lie outside the modelled
    range). *)
Definition is_line_boundary (c : ascii) : bool :=
  (in_range 10 13 c || in_range 28 30 c || N.eqb (code c) 133)%bool.

(** [str.isspace] on one character: TAB..CR, FS..US, space, NEL, NBSP. *)
Definition isspace (c : ascii) : bool :=
  (in_range 9 13 c || in_range 28 32 c
   || N.eqb (code c) 133 || N.eqb (code c) 160)%bool.

(** [s.splitlines()]: [cur] is the line being read, in reverse.  CR LF
    counts as one boundary and a final boundary opens no empty line. *)
Fixpoint splitlines_from (cur : list ascii) (s : string) : list string :=
  match s with
  | EmptyString =>
      match cur with
      | [] => []
      | _ => [string_of_list_ascii (rev cur)]
      end
  | String c rest =>
      if is_line_boundary c then
        string_of_list_ascii (rev cur) ::
          match rest with
          | String c' rest' =>
              if (N.eqb (code c) 13 && N.eqb (code c') 10)%bool
              then splitlines_from [] rest'
              else splitlines_from [] rest
          | EmptyString => splitlines_from [] rest
          end
      else splitlines_from (c :: cur) rest
  end.

Definition splitlines (s : string) : list string := splitlines_from [] s.

(** [s.startswith(p)] *)
Definition startswith (s p : string) : bool := String.prefix p s.

(** [s.split(sep)] for a one-character separator: never empty. *)
Fixpoint split (sep : ascii) (s : string) : list string :=
  match s with
  | EmptyString => [EmptyString]
  | String c rest =>
      if Ascii.eqb c sep then EmptyString :: split sep rest
      else match split sep rest with
           | h :: t => String c h :: t
           | [] => [String c EmptyString]
           end
  end.

Fixpoint lstrip (s : string) : string :=
  match s with
  | EmptyString => EmptyString
  | String c rest => if isspace c then lstrip rest else s
  end.

Fixpoint rstrip (s : string) : string :=
  match s with
  | EmptyString => EmptyString
  | String c rest =>
      match rstrip rest with
      | EmptyString => if isspace c then EmptyString else String c EmptyString
      | r => String c r
      end
  end.

(** [s.strip()] *)
Definition strip (s : string) : string := rstrip (lstrip s).

Definition upper_char (c : ascii) : ascii :=
  if in_range 97 122 c then ascii_of_N (code c - 32) else c.

(** [s.upper()] on ASCII text: the letters a..z are mapped to A..Z and
    every other character is kept. *)
Fixpoint upper (s : string) : string :=
  match s with
  | EmptyString => EmptyString
  | String c rest => String (upper_char c) (upper rest)
  end.

Fixpoint forallb (p : ascii -> bool) (s : string) : bool :=
  match s with
  | EmptyString => true
  | String c rest => (p c && forallb p rest)%bool
  end.

(** Truth value of a [str]: non-empty. *)
Definition truthy (s : string) : bool :=
  match s with EmptyString => false | _ => true end.

(** [str(n)] for a non-negative integer. *)
Definition of_N (n : N) : string := NilZero.string_of_uint (N.to_uint n).
Definition of_nat (n : nat) : string := NilZero.string_of_uint (Nat.to_uint n).

End Str.

(** ** Exceptions, events and the effect monad *)

Inductive transport_failure : Type :=
| ConnectionRefused
| TimedOut
| MalformedResponse.

(** The exceptions the script can meet.  All but [SystemExit] derive from
    [Exception]; [HTTPError] is the one [raise_for_status] raises and
    [OSError] the one [open] raises. *)
Inductive exn : Type :=
| ValueError
| RequestException (f : transport_failure)
| HTTPError (status : Z)
| IndexError
| SystemExit (status : Z)
| OSError.

Definition is_ValueError (e : exn) : bool :=
  match e with ValueError => true | _ => false end.

Definition is_Exception (e : exn) : bool :=
  match e with SystemExit _ => false | _ => true end.

(** What the script prints, one constructor per [print] of the source. *)
Inductive message : Type :=
| MsgIgnoredRange (line : string)
| MsgFetchFailed (e : exn)
| MsgNonIPv4 (ip_range : string)
| MsgParseFailed (ip_range : string)
| MsgInvalidIP (ip : string)
| MsgInvalidMax
| MsgFetching (url : string)
| MsgFetched (n : nat)
| MsgExpanding
| MsgExpanded (range_str : string) (n : nat)
| MsgUnique (n : nat)
| MsgStopAfter (max_count : Z)
| MsgFound (k : nat) (max_count : Z)
| MsgQuotaReached (max_count : Z)
| MsgProgress (completed total found : nat)
| MsgDone (n : nat) (output_file : string).

Inductive event : Type :=
| Printed (m : message)
| HttpGet (url : string) (timeout : Z)
| PoolCreate (max_workers : Z)
| Submit (ip : string)
| SetStop
| CancelFuture (future : nat)
| WriteFile (name content : string).

Inductive res (A : Type) : Type :=
| Ret (a : A)
| Raise (e : exn).
Arguments Ret {A} a.
Arguments Raise {A} e.

(** A computation: the events performed, then a value or an exception. *)
Definition M (A : Type) : Type := (list event * res A)%type.

Definition ret {A} (a : A) : M A := ([], Ret a).
Definition raise {A} (e : exn) : M A := ([], Raise e).
Definition emit (ev : event) : M unit := ([ev], Ret tt).
Definition print (m : message) : M unit := emit (Printed m).

Definition bind {A B} (m : M A) (k : A -> M B) : M B :=
  match m with
  | (t, Ret a) => let (t', r) := k a in (t ++ t', r)
  | (t, Raise e) => (t, Raise e)
  end.

Notation "x <- m ;; k" := (bind m (fun x => k))
  (at level 61, m at next level, right associativity).
Notation "m ;;; k" := (bind m (fun _ => k))
  (at level 61, right associativity).

(** [try: body / except <catches>: handler]; the value is the one of
    whichever branch finishes. *)
Definition try_except {A} (body : M A) (catches : exn -> bool)
    (handler : exn -> M A) : M A :=
  match body with
  | (t, Ret a) => (t, Ret a)
  | (t, Raise e) =>
      if catches e then let (t', r) := handler e in (t ++ t', r)
      else (t, Raise e)
  end.

Definition trace {A} (m : M A) : list event := fst m.
Definition outcome {A} (m : M A) : res A := snd m.

(** ** The [ipaddress] module: dotted-quad addresses *)

Module ipaddress.

Definition is_digit (c : ascii) : bool := Str.in_range 48 57 c.

Fixpoint int_of_digits (acc : N) (s : string) : N :=
  match s with
  | EmptyString => acc
  | String c rest => int_of_digits (10 * acc + (Str.code c - 48)) rest
  end.

(** One octet: one to three ASCII digits, no leading zero besides "0"
    itself, at most 255. *)
Definition parse_octet (s : string) : option N :=
  match s with
  | EmptyString => None
  | String c rest =>
      if negb (Str.forallb is_digit s) then None
      else if Nat.ltb 3 (String.length s) then None
      else if (Ascii.eqb c "0" && Str.truthy rest)%bool then None
      else let v := int_of_digits 0 s in
           if N.ltb 255 v then None else Some v
  end.

Definition ip_int_from_string (s : string) : option N :=
  match Str.split "." s with
  | [a; b; c; d] =>
      match parse_octet a, parse_octet b, parse_octet c, parse_octet d with
      | Some a, Some b, Some c, Some d =>
          Some (((a * 256 + b) * 256 + c) * 256 + d)%N
      | _, _, _, _ => None
      end
  | _ => None
  end.

(** [ipaddress.IPv4Address(s)]: the address as a number, or
    [ValueError]. *)
Definition IPv4Address (s : string) : M N :=
  match ip_int_from_string s with
  | Some v => ret v
  | None => raise ValueError
  end.

(** [str(ip)] of an [IPv4Address]. *)
Definition to_string (v : N) : string :=
  Str.of_N (v / 16777216) ++ "." ++ Str.of_N ((v / 65536) mod 256) ++ "."
  ++ Str.of_N ((v / 256) mod 256) ++ "." ++ Str.of_N (v mod 256).

(** What [ipaddress.ip_network(text, strict=True)] makes of a text: an
    IPv4 network (its first address and prefix length), an IPv6 network,
    or [ValueError]. *)
Inductive network : Type :=
| IPv4Network (network_address : N) (prefixlen : N)
| IPv6Network
| NetworkValueError.

Definition num_addresses (prefixlen : N) : N := 2 ^ (32 - prefixlen).

(** Iterating an [IPv4Network] yields every address of the block, the
    network and broadcast addresses included, in ascending order. *)
Definition addresses (network_address prefixlen : N) : list N :=
  map (fun i => (network_address + N.of_nat i)%N)
      (seq 0 (N.to_nat (num_addresses prefixlen))).

(** The parser on the notation [a.b.c.d/n] with a decimal prefix
    length; [strict=True] refuses a text with host bits set. *)
Definition cidr_network (text : string) : network :=
  match Str.split "/" text with
  | [addr; plen] =>
      match ip_int_from_string addr with
      | Some a =>
          match plen with
          | EmptyString => NetworkValueError
          | _ =>
              if negb (Str.forallb is_digit plen) then NetworkValueError
              else let n := int_of_digits 0 plen in
                   if N.ltb 32 n then NetworkValueError
                   else if N.eqb (a mod num_addresses n) 0
                        then IPv4Network a n
                        else NetworkValueError
          end
      | None => NetworkValueError
      end
  | _ => NetworkValueError
  end.

End ipaddress.

(** ** The environment *)

Inductive http_result : Type :=
| HttpFailure (f : transport_failure)
| HttpResponse (status_code : Z) (text : string).

(** What one call of [check_ip_location] sees of [stop_event]: the flag is
    read on entry and once more just before the request. *)
Record stop_view : Type := {
  at_entry : bool;
  before_request : bool
}.

Definition flag_clear : stop_view :=
  {| at_entry := false; before_request := false |}.

(** A future of the pool: its identity and the address it probes. *)
Record Future : Type := {
  fid : nat;
  fip : string
}.

Record World : Type := {
  (** the answer to [requests.get(url)] *)
  http : string -> http_result;
  (** [ipaddress.ip_network(text, strict=True)] *)
  ip_network : string -> ipaddress.network;
  (** the rank that decides where a [set] lists an element: whatever the
      order in which the one set of a run is listed, some ranking gives
      it *)
  set_rank : string -> N;
  (** the futures found done by the [n]-th call of [wait], in the order
      the [for] loop visits them *)
  wait_done : nat -> list Future -> list Future;
  (** what the worker running a future reads from [stop_event] if the flag
      is set while it runs *)
  worker_view : nat -> stop_view;
  (** whether [open(name, 'w')] succeeds; a file that was opened takes
      everything written to it *)
  can_open : string -> bool
}.

Definition MAX_CONCURRENT_THREADS : Z := 1000.
Definition REQUEST_TIMEOUT : Z := 3.

(** ** The [requests] calls *)

Definition requests_get (w : World) (url : string) (timeout : Z)
  : M (Z * string) :=
  emit (HttpGet url timeout) ;;;
  match http w url with
  | HttpFailure f => raise (RequestException f)
  | HttpResponse status_code text => ret (status_code, text)
  end.

Definition raise_for_status (response : Z * string) : M unit :=
  let status_code := fst response in
  if ((400 <=? status_code) && (status_code <? 600))%Z
  then raise (HTTPError status_code)
  else ret tt.

Definition ip_network_strict (w : World) (text : string)
  : M ipaddress.network :=
  match ip_network w text with
  | ipaddress.NetworkValueError => raise ValueError
  | network => ret network
  end.

(** ** [is_valid_ipv4_range], [fetch_ip_ranges], [expand_ip_range] *)

Definition is_valid_ipv4_range (w : World) (ip_range : string) : M bool :=
  try_except
    (network <- ip_network_strict w ip_range ;;
     ret match network with
         | ipaddress.IPv4Network _ _ => true
         | _ => false
         end)
    is_ValueError
    (fun _ => ret false).

(** The [for line in response.text.splitlines()] loop. *)
Fixpoint fetch_lines (w : World) (lines : list string)
    (ip_ranges : list string) : M (list string) :=
  match lines with
  | [] => ret ip_ranges
  | line :: rest =>
      let line := Str.strip line in
      if Str.truthy line then
        valid <- is_valid_ipv4_range w line ;;
        if valid : bool then fetch_lines w rest (ip_ranges ++ [line])
        else print (MsgIgnoredRange line) ;;; fetch_lines w rest ip_ranges
      else fetch_lines w rest ip_ranges
  end.

Definition fetch_ip_ranges (w : World) (url : string) : M (list string) :=
  try_except
    (response <- requests_get w url 10 ;;
     raise_for_status response ;;;
     fetch_lines w (Str.splitlines (snd response)) [])
    is_Exception
    (fun e => print (MsgFetchFailed e) ;;; raise (SystemExit 1)).

Definition expand_ip_range (w : World) (ip_range : string)
  : M (list string) :=
  try_except
    (network <- ip_network_strict w ip_range ;;
     match network with
     | ipaddress.IPv4Network network_address prefixlen =>
         ret (map ipaddress.to_string
                  (ipaddress.addresses network_address prefixlen))
     | _ => print (MsgNonIPv4 ip_range) ;;; ret []
     end)
    is_ValueError
    (fun _ => print (MsgParseFailed ip_range) ;;; ret []).

(** ** [check_ip_location] *)

(** Truth value of [target_colos]: [None] and the empty list are false. *)
Definition targets_given (target_colos : option (list string)) : bool :=
  match target_colos with
  | Some (_ :: _) => true
  | _ => false
  end.

Definition targets (target_colos : option (list string)) : list string :=
  match target_colos with
  | Some l => l
  | None => []
  end.

(** [colo in target_colos], by [==]; [colo] may still be [None]. *)
Definition colo_in (colo : option string) (l : list string) : bool :=
  match colo with
  | Some c => existsb (String.eqb c) l
  | None => false
  end.

(** [xs[i]]: [IndexError] out of range. *)
Definition getitem {A} (xs : list A) (i : nat) : M A :=
  match nth_error xs i with
  | Some x => ret x
  | None => raise IndexError
  end.

(** The loop that looks for the first line starting with [colo=]. *)
Fixpoint find_colo (lines : list string) : M (option string) :=
  match lines with
  | [] => ret None
  | line :: rest =>
      if Str.startswith line "colo=" then
        field <- getitem (Str.split "=" line) 1 ;;
        ret (Some (Str.strip field))
      else find_colo rest
  end.

(** The body of the second [try] block. *)
Definition probe (w : World) (ip : string)
    (target_colos : option (list string)) (stop_event : stop_view)
  : M (option (string * string)) :=
  let url := ("http://" ++ ip ++ "/cdn-cgi/trace")%string in
  if before_request stop_event then ret None
  else
    response <- requests_get w url REQUEST_TIMEOUT ;;
    raise_for_status response ;;;
    colo <- find_colo (Str.splitlines (snd response)) ;;
    if (targets_given target_colos
        && negb (colo_in colo (targets target_colos)))%bool
    then ret None
    else ret match colo with
             | Some c => if Str.truthy c then Some (ip, c) else None
             | None => None
             end.

(** The first [try] block yields [true] when the address parses; its
    handler prints and makes the function return [None]. *)
Definition check_ip_location (w : World) (ip : string)
    (target_colos : option (list string)) (stop_event : stop_view)
  : M (option (string * string)) :=
  if at_entry stop_event then ret None
  else
    valid <- try_except
               (ipaddress.IPv4Address ip ;;; ret true)
               is_ValueError
               (fun _ => print (MsgInvalidIP ip) ;;; ret false) ;;
    if valid : bool then
      try_except (probe w ip target_colos stop_event)
                 is_Exception
                 (fun _ => ret None)
    else ret None.

(** ** The scan: [main], lines 129-167 *)

(** A step that may fail to terminate sits in [option]: [None] says that
    the loop did not finish within the iterations it was allowed. *)
Definition bind_loop {A B} (m : M A) (k : A -> option (M B))
  : option (M B) :=
  match m with
  | (t, Ret a) =>
      match k a with
      | Some (t', r) => Some (t ++ t', r)
      | None => None
      end
  | (t, Raise e) => Some (t, Raise e)
  end.

Notation "x <- m ;;? k" := (bind_loop m (fun x => k))
  (at level 61, m at next level, right associativity).
Notation "m ;;;? k" := (bind_loop m (fun _ => k))
  (at level 61, right associativity).

(** The coordinator's variables. *)
Record scan_state : Type := {
  futures : list Future;
  completed : nat;
  matched_results : list (string * string);
  stop_event : bool
}.

(** [ThreadPoolExecutor(max_workers=n)] raises [ValueError] unless [n] is
    positive. *)
Definition ThreadPoolExecutor (max_workers : Z) : M unit :=
  if (max_workers <=? 0)%Z then raise ValueError
  else emit (PoolCreate max_workers).

(** The submission loop; futures are numbered in submission order. *)
Fixpoint submit_all (all_ips : list string) (next : nat) : M (list Future) :=
  match all_ips with
  | [] => ret []
  | ip :: rest =>
      emit (Submit ip) ;;;
      fs <- submit_all rest (S next) ;;
      ret ({| fid := next; fip := ip |} :: fs)
  end.

Definition same_future (f g : Future) : bool := Nat.eqb (fid f) (fid g).

(** [future in futures] *)
Definition future_in (f : Future) (fs : list Future) : bool :=
  existsb (same_future f) fs.

(** [futures.remove(future)]: the first occurrence goes. *)
Fixpoint remove_future (f : Future) (fs : list Future) : list Future :=
  match fs with
  | [] => []
  | g :: rest => if same_future f g then rest else g :: remove_future f rest
  end.

(** A worker cannot have read a set flag while the coordinator still has
    it clear. *)
Definition seen (flag : bool) (v : stop_view) : stop_view :=
  {| at_entry := (at_entry v && flag)%bool;
     before_request := (before_request v && flag)%bool |}.

(** [future.result()] of a finished future: what its call of
    [check_ip_location] returned or raised.  The worker's own events are
    not the coordinator's. *)
Definition future_result (w : World) (target_colos : option (list string))
    (flag : bool) (future : Future) : M (option (string * string)) :=
  ([], outcome (check_ip_location w (fip future) target_colos
                  (seen flag (worker_view w (fid future))))).

Fixpoint cancel_all (fs : list Future) : M unit :=
  match fs with
  | [] => ret tt
  | f :: rest => emit (CancelFuture (fid f)) ;;; cancel_all rest
  end.

(** [for future in done: ...]; the [break] ends the recursion. *)
Fixpoint drain (w : World) (target_colos : option (list string))
    (max_count : Z) (done : list Future) (st : scan_state) : M scan_state :=
  match done with
  | [] => ret st
  | future :: rest =>
      if future_in future (futures st) then
        let st1 := {| futures := remove_future future (futures st);
                      completed := S (completed st);
                      matched_results := matched_results st;
                      stop_event := stop_event st |} in
        result <- future_result w target_colos (stop_event st1) future ;;
        match result with
        | Some r =>
            let st2 := {| futures := futures st1;
                          completed := completed st1;
                          matched_results := matched_results st1 ++ [r];
                          stop_event := stop_event st1 |} in
            print (MsgFound (List.length (matched_results st2)) max_count) ;;;
            if (max_count <=? Z.of_nat (List.length (matched_results st2)))%Z then
              print (MsgQuotaReached max_count) ;;;
              emit SetStop ;;;
              cancel_all (futures st2) ;;;
              ret {| futures := futures st2;
                     completed := completed st2;
                     matched_results := matched_results st2;
                     stop_event := true |}
            else drain w target_colos max_count rest st2
        | None => drain w target_colos max_count rest st1
        end
      else drain w target_colos max_count rest st
  end.

Definition progress_due (completed total : nat) : bool :=
  (Nat.eqb (completed mod 50) 0 || Nat.eqb completed total)%bool.

(** The [while] loop; [n] counts the calls of [wait] made so far. *)
Fixpoint scan_loop (w : World) (target_colos : option (list string))
    (max_count : Z) (total : nat) (fuel n : nat) (st : scan_state)
  : option (M scan_state) :=
  if (Nat.ltb (completed st) total
      && (Z.of_nat (List.length (matched_results st)) <? max_count)%Z)%bool
  then
    match fuel with
    | O => None
    | S fuel' =>
        let done := wait_done w n (futures st) in
        st' <- drain w target_colos max_count done st ;;?
        if stop_event st' then Some (ret st')
        else
          (if progress_due (completed st') total
           then print (MsgProgress (completed st') total
                         (List.length (matched_results st')))
           else ret tt) ;;;?
          scan_loop w target_colos max_count total fuel' (S n) st'
    end
  else Some (ret st).

Definition max_workers (all_ips : list string) : Z :=
  Z.min MAX_CONCURRENT_THREADS (Z.of_nat (List.length all_ips)).

(** The [with ThreadPoolExecutor(...)] block.  Every call of [wait] returns
    a pending future that finished, so [total] iterations are enough; on
    the way out the pool waits for the workers still running. *)
Definition scan (w : World) (all_ips : list string)
    (target_colos : option (list string)) (max_count : Z)
  : option (M (list (string * string))) :=
  ThreadPoolExecutor (max_workers all_ips) ;;;?
  futures <- submit_all all_ips 0 ;;?
  let total := List.length futures in
  let st := {| futures := futures; completed := 0;
               matched_results := []; stop_event := false |} in
  match scan_loop w target_colos max_count total total 0 st with
  | Some (t, Ret st') => Some (t, Ret (matched_results st'))
  | Some (t, Raise e) => Some (t, Raise e)
  | None => None
  end.

(** ** Truncation and sorting: [main], lines 169-173 *)

(** [xs[:k]]; a negative [k] counts from the end. *)
Definition slice_to {A} (xs : list A) (k : Z) : list A :=
  if (0 <=? k)%Z then firstn (Z.to_nat k) xs
  else firstn (Z.to_nat (Z.of_nat (List.length xs) + k)) xs.

Definition truncate (matched_results : list (string * string))
    (max_count : Z) : list (string * string) :=
  if (max_count <? Z.of_nat (List.length matched_results))%Z
  then slice_to matched_results max_count
  else matched_results.

(** [list.sort] and [sorted] are stable; so is insertion from the right,
    which puts an element in front of the first one it does not exceed. *)
Fixpoint insert_by {A} (le : A -> A -> bool) (x : A) (l : list A) : list A :=
  match l with
  | [] => [x]
  | y :: l' => if le x y then x :: l else y :: insert_by le x l'
  end.

Definition sort_by {A} (le : A -> A -> bool) (l : list A) : list A :=
  fold_right (insert_by le) [] l.

Fixpoint mapM {A B} (f : A -> M B) (l : list A) : M (list B) :=
  match l with
  | [] => ret []
  | x :: rest => y <- f x ;; ys <- mapM f rest ;; ret (y :: ys)
  end.

Definition key_le {A} (a b : N * A) : bool := N.leb (fst a) (fst b).

(** [list(set(xs))]: every element once, in the order of the ranks. *)
Definition list_of_set (w : World) (xs : list string) : list string :=
  sort_by (fun a b => N.leb (set_rank w a) (set_rank w b))
          (nodup string_dec xs).

(** [matched_results.sort(key=lambda x: ipaddress.IPv4Address(x[0]))]:
    the keys are computed first, one per entry, then the entries are
    sorted by key. *)
Definition sort_by_address (matched_results : list (string * string))
  : M (list (string * string)) :=
  keys <- mapM (fun x => ipaddress.IPv4Address (fst x)) matched_results ;;
  ret (map snd (sort_by key_le (combine keys matched_results))).

Definition aggregate (matched_results : list (string * string))
    (max_count : Z) : M (list (string * string)) :=
  sort_by_address (truncate matched_results max_count).

(** ** Grouping and the report: [main], lines 176-185 *)

(** [colo_groups], a [defaultdict(list)]: keys in insertion order. *)
Definition groups : Type := list (string * list string).

(** [colo_groups[colo].append(ip)] *)
Fixpoint groups_append (colo ip : string) (g : groups) : groups :=
  match g with
  | [] => [(colo, [ip])]
  | (k, ips) :: g' =>
      if String.eqb colo k then (k, ips ++ [ip]) :: g'
      else (k, ips) :: groups_append colo ip g'
  end.

Definition group_all (matched_results : list (string * string)) : groups :=
  fold_left (fun g x => groups_append (snd x) (fst x) g) matched_results [].

(** [colo_groups[colo]] *)
Fixpoint groups_get (colo : string) (g : groups) : list string :=
  match g with
  | [] => []
  | (k, ips) :: g' => if String.eqb colo k then ips else groups_get colo g'
  end.

Fixpoint enumerate {A} (xs : list A) (start : nat) : list (nat * A) :=
  match xs with
  | [] => []
  | x :: rest => (start, x) :: enumerate rest (S start)
  end.

Definition newline : string := String "010" EmptyString.

(** [f"{ip}#{colo} {idx}\n"] *)
Definition report_line (ip colo : string) (idx : nat) : string :=
  ip ++ "#" ++ colo ++ " " ++ Str.of_nat idx ++ newline.

Definition group_lines (colo : string) (ips : list string) : list string :=
  map (fun p => report_line (snd p) colo (fst p)) (enumerate ips 1).

Definition report_lines (matched_results : list (string * string))
  : list string :=
  let colo_groups := group_all matched_results in
  flat_map (fun colo => group_lines colo (groups_get colo colo_groups))
           (sort_by String.leb (map fst colo_groups)).

(** [open(output_file, 'w')]: [OSError] (no such directory, a directory,
    an empty name, no permission) when the file cannot be opened. *)
Definition open_for_writing (w : World) (output_file : string) : M unit :=
  if can_open w output_file then ret tt else raise OSError.

(** The text the body of the [with open(output_file, 'w')] block leaves
    in the file it was given. *)
Definition write_report (matched_results : list (string * string))
    (output_file : string) : M unit :=
  emit (WriteFile output_file (String.concat "" (report_lines matched_results))).

(** ** [main] *)

(** The parsed command line: [-d], [-i] and [-o]. *)
Record Args : Type := {
  d : option (list string);
  i : Z;
  o : string
}.

Definition ip_ranges_url : string := "https://www.cloudflare-cn.com/ips-v4".

(** [[col.upper() for col in args.d] if args.d else None] *)
Definition normalise_targets (d : option (list string))
  : option (list string) :=
  match d with
  | Some ((_ :: _) as cols) => Some (map Str.upper cols)
  | _ => None
  end.

(** The loop over [ip_ranges] that fills [all_ips]. *)
Fixpoint expand_all (w : World) (ip_ranges all_ips : list string)
  : M (list string) :=
  match ip_ranges with
  | [] => ret all_ips
  | range_str :: rest =>
      ips <- expand_ip_range w range_str ;;
      print (MsgExpanded range_str (List.length ips)) ;;;
      expand_all w rest (all_ips ++ ips)
  end.

(** Lines 129-173: the scan, then truncation and sorting. *)
Definition result_set (w : World) (all_ips : list string)
    (target_colos : option (list string)) (max_count : Z)
  : option (M (list (string * string))) :=
  match scan w all_ips target_colos max_count with
  | None => None
  | Some found =>
      Some (matched_results <- found ;; aggregate matched_results max_count)
  end.

(** Lines 98-104: the quota must be positive. *)
Definition checked_max_count (args : Args) : M Z :=
  try_except
    (let max_count := i args in
     if (max_count <=? 0)%Z then raise ValueError
     else ret max_count)
    is_ValueError
    (fun _ => print MsgInvalidMax ;;; raise (SystemExit 1)).

(** Lines 109-120: the ranges are fetched and expanded, and the addresses
    are listed once each. *)
Definition candidates (w : World) : M (list string) :=
  print (MsgFetching ip_ranges_url) ;;;
  ip_ranges <- fetch_ip_ranges w ip_ranges_url ;;
  print (MsgFetched (List.length ip_ranges)) ;;;
  print MsgExpanding ;;;
  all_ips <- expand_all w ip_ranges [] ;;
  ret (list_of_set w all_ips).

Definition main (w : World) (args : Args) : option (M unit) :=
  let target_colos := normalise_targets (d args) in
  max_count <- checked_max_count args ;;?
  let output_file := o args in
  all_ips <- candidates w ;;?
  print (MsgUnique (List.length all_ips)) ;;;?
  print (MsgStopAfter max_count) ;;;?
  match result_set w all_ips target_colos max_count with
  | None => None
  | Some found =>
      matched_results <- found ;;?
      open_for_writing w output_file ;;;?
      write_report matched_results output_file ;;;?
      Some (print (MsgDone (List.length matched_results) output_file))
  end.

(** The exit status of a finished run: 0, the argument of [sys.exit], or
    1 for an exception nobody caught. *)
Definition exit_status (r : res unit) : Z :=
  match r with
  | Ret _ => 0%Z
  | Raise (SystemExit status) => status
  | Raise _ => 1%Z
  end.

(** ** Notions the statements use *)

Definition probe_url (ip : string) : string :=
  ("http://" ++ ip ++ "/cdn-cgi/trace")%string.

(** The code a [colo=] line carries: the text between its first and its
    second [=], stripped. *)
Definition colo_field (line : string) : string :=
  Str.strip (nth 1 (Str.split "=" line) EmptyString).

Definition first_colo (lines : list string) : option string :=
  option_map colo_field
             (find (fun line => Str.startswith line "colo=") lines).

(** Status codes for which [raise_for_status] raises. *)
Definition error_status (status_code : Z) : bool :=
  ((400 <=? status_code) && (status_code <? 600))%Z.

(** The number an address text denotes; 0 for a text that is no
    address. *)
Definition address_value (ip : string) : N :=
  match ipaddress.ip_int_from_string ip with
  | Some v => v
  | None => 0%N
  end.

Definition valid_address (ip : string) : Prop :=
  ipaddress.ip_int_from_string ip <> None.

(** A three-letter upper-case code. *)
Definition is_location_code (c : string) : bool :=
  (Nat.eqb (String.length c) 3 && Str.forallb (Str.in_range 65 90) c)%bool.

Definition valid_entry (x : string * string) : Prop :=
  valid_address (fst x).

(** The order of the sort: by the number the address denotes. *)
Definition addr_leb (a b : string * string) : bool :=
  N.leb (address_value (fst a)) (address_value (fst b)).

Definition addr_le (a b : string * string) : Prop :=
  (address_value (fst a) <= address_value (fst b))%N.

(** The lexicographic order of [str], strict. *)
Definition str_lt (a b : string) : Prop := String.compare a b = Lt.

(** The addresses of the entries that carry the code [colo], in the
    order of the list. *)
Definition ips_of (colo : string) (entries : list (string * string))
  : list string :=
  map fst (filter (fun x => String.eqb (snd x) colo) entries).

(** What [check_ip_location] makes of the code it found, if any. *)
Definition classify (ip : string) (target_colos : option (list string))
    (colo : option string) : option (string * string) :=
  if (targets_given target_colos
      && negb (colo_in colo (targets target_colos)))%bool
  then None
  else match colo with
       | Some c => if Str.truthy c then Some (ip, c) else None
       | None => None
       end.

(** The outcome of a probe had the code been upper-cased before the
    test, as the specification words it: without a [colo=] line there is
    no match; with target codes given and the upper-cased code not among
    them there is no match; otherwise the address is matched with the
    code. *)
Definition specified_outcome (ip : string)
    (target_colos : option (list string)) (text : string)
  : option (string * string) :=
  match first_colo (Str.splitlines text) with
  | None => None
  | Some c =>
      if (targets_given target_colos
          && negb (existsb (String.eqb (Str.upper c)) (targets target_colos)))%bool
      then None
      else Some (ip, c)
  end.

(** What the coordinator gets from the future probing [ip] while the
    flag is clear: the value of the call, [None] had it raised. *)
Definition observed (w : World) (target_colos : option (list string))
    (ip : string) : option (string * string) :=
  match outcome (check_ip_location w ip target_colos flag_clear) with
  | Ret x => x
  | Raise _ => None
  end.

(** A matched result is what an undisturbed probe of some address
    returned. *)
Definition probed (w : World) (target_colos : option (list string))
    (r : string * string) : Prop :=
  exists ip, observed w target_colos ip = Some r.

(** The addresses a trace submits to the pool, in order. *)
Definition submitted (t : list event) : list string :=
  flat_map (fun ev => match ev with Submit ip => [ip] | _ => [] end) t.

(** The addresses [expand_ip_range] returns for a range text. *)
Definition range_addresses (w : World) (ip_range : string) : list string :=
  match ip_network w ip_range with
  | ipaddress.IPv4Network network_address prefixlen =>
      map ipaddress.to_string
          (ipaddress.addresses network_address prefixlen)
  | _ => []
  end.

(** Events of the coordinator's loop. *)
Definition loop_event (ev : event) : Prop :=
  match ev with
  | Printed _ | SetStop | CancelFuture _ => True
  | _ => False
  end.

(** Every call of [wait] finds one of the futures it was given done. *)
Definition productive (w : World) : Prop :=
  forall n pending,
    pending <> [] ->
    exists f, In f (wait_done w n pending) /\ future_in f pending = true.

Definition initial_state (fs : list Future) : scan_state :=
  {| futures := fs; completed := 0; matched_results := [];
     stop_event := false |}.

(** The futures [submit_all] creates. *)
Fixpoint futures_of (all_ips : list string) (next : nat) : list Future :=
  match all_ips with
  | [] => []
  | ip :: rest => {| fid := next; fip := ip |} :: futures_of rest (S next)
  end.

(** The same environment with other readings of the flag by the
    workers. *)
Definition with_view (w : World) (view : nat -> stop_view) : World :=
  {| http := http w;
     ip_network := ip_network w;
     set_rank := set_rank w;
     wait_done := wait_done w;
     worker_view := view;
     can_open := can_open w |}.

(** ** Environments for the examples *)

(** Every request is answered with status 200 and the same text; ranges
    are written [a.b.c.d/n]; [wait] finds every pending future done. *)
Definition world_answering (text : string) : World :=
  {| http := fun _ => HttpResponse 200 text;
     ip_network := ipaddress.cidr_network;
     set_rank := fun _ => 0%N;
     wait_done := fun _ pending => pending;
     worker_view := fun _ => flag_clear;
     can_open := fun _ => true |}.

(** Three ranges, two of them overlapping; [10.0.0.2] answers from LAX,
    [9.0.0.1] times out and every other address answers from SJC. *)
Definition example_world : World :=
  {| http := fun url =>
       if String.eqb url ip_ranges_url then
         HttpResponse 200
           ("10.0.0.0/30" ++ newline ++ "9.0.0.0/31" ++ newline
            ++ "10.0.0.0/31")%string
       else if String.eqb url (probe_url "10.0.0.2") then
         HttpResponse 200 "colo=LAX"
       else if String.eqb url (probe_url "9.0.0.1") then
         HttpFailure TimedOut
       else HttpResponse 200 ("h=1" ++ newline ++ "colo=SJC")%string;
     ip_network := ipaddress.cidr_network;
     set_rank := fun _ => 0%N;
     wait_done := fun _ pending => pending;
     worker_view := fun _ => flag_clear;
     can_open := fun _ => true |}.

Definition example_args : Args :=
  {| d := Some ["sjc"]; i := 2; o := "output.txt" |}.

(** ** Notions for the range list *)

(** Whether the network parser makes an IPv4 network of a text. *)
Definition is_ipv4_text (w : World) (text : string) : bool :=
  match ip_network w text with
  | ipaddress.IPv4Network _ _ => true
  | _ => false
  end.

(** The lines of a text, stripped, the blank ones left out. *)
Definition range_lines (text : string) : list string :=
  filter Str.truthy (map Str.strip (Str.splitlines text)).

(** The events of [fetch_ip_ranges] on an answer it accepts. *)
Definition ignored_events (w : World) (lines : list string) : list event :=
  map (fun line => Printed (MsgIgnoredRange line))
      (filter (fun line => negb (is_ipv4_text w line)) lines).

(** A string without the character [sep]. *)
Definition no_sep (sep : ascii) (s : string) : bool :=
  Str.forallb (fun c => negb (Ascii.eqb c sep)) s.

(** An IPv4 block inside the 32-bit address space. *)
Definition block_in_range (network_address prefixlen : N) : Prop :=
  (network_address + 2 ^ (32 - prefixlen) <= 2 ^ 32)%N.

(** The events of [expand_all] on ranges that all parse. *)
Definition expanded_events (w : World) (ip_ranges : list string)
  : list event :=
  map (fun r => Printed (MsgExpanded r (List.length (range_addresses w r))))
      ip_ranges.

(** The strict order of addresses as numbers. *)
Definition addr_text_lt (a b : string) : Prop :=
  (address_value a < address_value b)%N.

(** ** Notions for the scan *)

(** Every future [wait] reports done is one of those it was given. *)
Definition wait_sound (w : World) : Prop :=
  forall n pending f, In f (wait_done w n pending) -> In f pending.

(** The matches among addresses: what their undisturbed probes return,
    in the order of the addresses. *)
Definition matches_of (w : World) (target_colos : option (list string))
    (ips : list string) : list (string * string) :=
  flat_map (fun ip => match observed w target_colos ip with
                      | Some r => [r]
                      | None => []
                      end) ips.

(** ** Notions for whole runs *)

(** Events of the preparation: prints and requests. *)
Definition prep_event (ev : event) : Prop :=
  match ev with
  | Printed _ | HttpGet _ _ => True
  | _ => False
  end.

(** The files a trace writes, with their contents, in order. *)
Definition written (t : list event) : list (string * string) :=
  flat_map (fun ev => match ev with
                      | WriteFile name content => [(name, content)]
                      | _ => []
                      end) t.

(** The command line with the target codes in upper case. *)
Definition with_upper_targets (args : Args) : Args :=
  {| d := option_map (map Str.upper) (d args);
     i := i args;
     o := o args |}.


(** No request is ever answered. *)
Definition world_unreachable : World :=
  {| http := fun _ => HttpFailure ConnectionRefused;
     ip_network := ipaddress.cidr_network;
     set_rank := fun _ => 0%N;
     wait_done := fun _ pending => pending;
     worker_view := fun _ => flag_clear;
     can_open := fun _ => true |}.

(** ** The worker pool

    The pool is the library's [concurrent.futures.ThreadPoolExecutor]; the
    script decides its size and what is submitted to it.  The pool, as the
    library's [submit], [_adjust_thread_count] and [_worker] have it: a
    submitted unit is queued and a worker thread is started for it unless
    [max_workers] threads exist already; a thread that runs nothing takes
    the next queued unit and runs it until it returns; a unit cancelled
    while it is queued is never run.  Units are numbered in submission
    order, as the futures of [submit_all] are. *)
Record pool_state : Type := {
  pool_size : Z;
  threads : nat;
  next_unit : nat;
  queued : list Future;
  running : list Future
}.

Inductive worker_step : Type :=
| TakeUnit
| ReturnUnit (future : nat).

(** A run of the pool interleaves the events of the coordinator with the
    steps of the worker threads. *)
Inductive step : Type :=
| Coordinator (ev : event)
| Worker (a : worker_step).

Definition new_pool (max_workers : Z) : pool_state :=
  {| pool_size := max_workers; threads := 0; next_unit := 0;
     queued := []; running := [] |}.

Definition pool_submit (p : pool_state) (ip : string) : pool_state :=
  {| pool_size := pool_size p;
     threads := if (Z.of_nat (threads p) <? pool_size p)%Z
                then S (threads p) else threads p;
     next_unit := S (next_unit p);
     queued := queued p ++ [{| fid := next_unit p; fip := ip |}];
     running := running p |}.

Definition other_than (future : nat) (f : Future) : bool :=
  negb (Nat.eqb (fid f) future).

Definition pool_cancel (p : pool_state) (future : nat) : pool_state :=
  {| pool_size := pool_size p;
     threads := threads p;
     next_unit := next_unit p;
     queued := filter (other_than future) (queued p);
     running := running p |}.

Definition pool_take (p : pool_state) : pool_state :=
  match queued p with
  | [] => p
  | f :: rest =>
      if Nat.ltb (List.length (running p)) (threads p) then
        {| pool_size := pool_size p;
           threads := threads p;
           next_unit := next_unit p;
           queued := rest;
           running := f :: running p |}
      else p
  end.

Definition pool_return (p : pool_state) (future : nat) : pool_state :=
  {| pool_size := pool_size p;
     threads := threads p;
     next_unit := next_unit p;
     queued := queued p;
     running := filter (other_than future) (running p) |}.

(** Before [ThreadPoolExecutor(...)] there is no pool. *)
Definition pool_step (p : option pool_state) (s : step)
  : option pool_state :=
  match s with
  | Coordinator (PoolCreate max_workers) => Some (new_pool max_workers)
  | Coordinator (Submit ip) => option_map (fun q => pool_submit q ip) p
  | Coordinator (CancelFuture future) =>
      option_map (fun q => pool_cancel q future) p
  | Coordinator _ => p
  | Worker TakeUnit => option_map pool_take p
  | Worker (ReturnUnit future) =>
      option_map (fun q => pool_return q future) p
  end.

(** The states a run goes through, the first one included. *)
Fixpoint pool_states (p : option pool_state) (sched : list step)
  : list (option pool_state) :=
  match sched with
  | [] => [p]
  | s :: rest => p :: pool_states (pool_step p s) rest
  end.

(** The number of probes being executed. *)
Definition executing (p : option pool_state) : nat :=
  match p with
  | None => 0
  | Some q => List.length (running q)
  end.

(** The coordinator's part of a run. *)
Definition coordinator_events (sched : list step) : list event :=
  flat_map (fun s => match s with
                     | Coordinator ev => [ev]
                     | Worker _ => []
                     end) sched.

(** A pool of size [n] never has more threads than its size, and never runs more
    units than it has threads. *)
Definition pool_bounded (n : Z) (p : option pool_state) : Prop :=
  match p with
  | None => True
  | Some q =>
      pool_size q = n
      /\ List.length (running q) <= threads q
      /\ (Z.of_nat (threads q) <= n)%Z
  end.

(** A run of the pool on three candidates, the quota being one. *)
Definition example_run : list step :=
  [Coordinator (PoolCreate 3);
   Coordinator (Submit "10.0.0.2"); Worker TakeUnit;
   Coordinator (Submit "9.0.0.1"); Worker TakeUnit;
   Coordinator (Submit "10.0.0.1"); Worker TakeUnit;
   Worker TakeUnit;
   Worker (ReturnUnit 0);
   Coordinator (Printed (MsgFound 1 1));
   Coordinator (Printed (MsgQuotaReached 1));
   Coordinator SetStop;
   Coordinator (CancelFuture 1); Coordinator (CancelFuture 2);
   Worker (ReturnUnit 2); Worker (ReturnUnit 1)].

(** * Properties *)

(** ** The effect monad *)

Section MonadFacts.
Context {A B : Type}.

Lemma bind_ret (a : A) (k : A -> M B) : bind (ret a) k = k a.
Proof. unfold bind, ret. destruct (k a). reflexivity. Qed.

Lemma bind_Ret (t : list event) (a : A) (k : A -> M B) :
  bind (t, Ret a) k = (t ++ trace (k a), outcome (k a)).
Proof. unfold bind. destruct (k a). reflexivity. Qed.

Lemma bind_raise (e : exn) (k : A -> M B) : bind (raise e) k = raise e.
Proof. reflexivity. Qed.

Lemma outcome_bind (m : M A) (k : A -> M B) :
  outcome (bind m k) =
  match outcome m with
  | Ret a => outcome (k a)
  | Raise e => Raise e
  end.
Proof.
  destruct m as [t [a | e]]; simpl; [destruct (k a) |]; reflexivity.
Qed.

Lemma trace_bind (m : M A) (k : A -> M B) :
  trace (bind m k) =
  match outcome m with
  | Ret a => trace m ++ trace (k a)
  | Raise _ => trace m
  end.
Proof.
  destruct m as [t [a | e]]; simpl; [destruct (k a) |]; reflexivity.
Qed.

Lemma bind_emit (ev : event) (k : unit -> M B) :
  bind (emit ev) k = (ev :: trace (k tt), outcome (k tt)).
Proof. unfold bind, emit. destruct (k tt). reflexivity. Qed.
End MonadFacts.

(** ** Lines and fields *)

Lemma split_cons (sep : ascii) (s : string) :
  exists h t, Str.split sep s = h :: t.
Proof.
  induction s as [| c rest [h [t IH]]]; simpl.
  - eauto.
  - destruct (Ascii.eqb c sep); [eauto |]. rewrite IH. eauto.
Qed.

Lemma startswith_colo (line : string) :
  Str.startswith line "colo=" = true ->
  exists rest, line = ("colo=" ++ rest)%string.
Proof.
  unfold Str.startswith. intros H.
  apply prefix_correct in H. simpl in H.
  exists (substring 5 (String.length line - 5) line).
  do 5 (destruct line as [| ? line]; [discriminate |]).
  simpl in H. injection H as -> -> -> -> -> _.
  simpl. f_equal. f_equal. f_equal. f_equal. f_equal.
  rewrite Nat.sub_0_r.
  clear. induction line as [| c l IH]; simpl; [reflexivity |].
  f_equal. exact IH.
Qed.

Lemma split_colo (rest : string) :
  exists x xs, Str.split "=" ("colo=" ++ rest)%string = "colo" :: x :: xs.
Proof.
  destruct (split_cons "=" rest) as [x [xs E]].
  exists x, xs. simpl. rewrite E. reflexivity.
Qed.

(** The search for the [colo=] line never raises: a line with that prefix
    has a second field. *)
Lemma find_colo_pure (lines : list string) :
  find_colo lines = ret (first_colo lines).
Proof.
  unfold first_colo.
  induction lines as [| line rest IH]; simpl; [reflexivity |].
  destruct (Str.startswith line "colo=") eqn:E; [| exact IH].
  destruct (startswith_colo _ E) as [tl ->].
  destruct (split_colo tl) as [x [xs Hs]].
  unfold colo_field. cbn [option_map]. rewrite Hs. reflexivity.
Qed.

(** ** The probe *)

Lemma probe_eq (w : World) (ip : string)
    (target_colos : option (list string)) (v : stop_view) :
  probe w ip target_colos v =
  if before_request v then ([], Ret None)
  else
    ([HttpGet (probe_url ip) REQUEST_TIMEOUT],
     match http w (probe_url ip) with
     | HttpFailure f => Raise (RequestException f)
     | HttpResponse status_code text =>
         if error_status status_code then Raise (HTTPError status_code)
         else Ret (classify ip target_colos
                     (first_colo (Str.splitlines text)))
     end).
Proof.
  unfold probe, probe_url.
  destruct (before_request v); [reflexivity |].
  unfold requests_get. rewrite bind_emit.
  destruct (http w _) as [f | status_code text]; [reflexivity |].
  cbn [trace outcome ret fst snd]. rewrite bind_Ret.
  unfold raise_for_status, error_status. cbn [fst snd].
  destruct ((400 <=? status_code)%Z && (status_code <? 600)%Z)%bool;
    [reflexivity |].
  rewrite bind_ret, find_colo_pure, bind_ret.
  unfold classify.
  destruct (targets_given target_colos && _)%bool; reflexivity.
Qed.

(** [check_ip_location] in closed form: which events it performs and what
    it returns.  No branch raises. *)
Lemma check_ip_location_eq (w : World) (ip : string)
    (target_colos : option (list string)) (v : stop_view) :
  check_ip_location w ip target_colos v =
  if at_entry v then ([], Ret None)
  else match ipaddress.ip_int_from_string ip with
       | None => ([Printed (MsgInvalidIP ip)], Ret None)
       | Some _ =>
           if before_request v then ([], Ret None)
           else ([HttpGet (probe_url ip) REQUEST_TIMEOUT],
                 Ret match http w (probe_url ip) with
                     | HttpFailure _ => None
                     | HttpResponse status_code text =>
                         if error_status status_code then None
                         else classify ip target_colos
                                (first_colo (Str.splitlines text))
                     end)
       end.
Proof.
  unfold check_ip_location, ipaddress.IPv4Address.
  destruct (at_entry v); [reflexivity |].
  destruct (ipaddress.ip_int_from_string ip); [| reflexivity].
  simpl. rewrite probe_eq.
  destruct (before_request v); [reflexivity |].
  destruct (http w _) as [f | status_code text]; [reflexivity |].
  destruct (error_status status_code); reflexivity.
Qed.

Lemma classify_some (ip : string) (target_colos : option (list string))
    (colo : option string) (r : string * string) :
  classify ip target_colos colo = Some r <->
  exists c, colo = Some c /\ c <> EmptyString
            /\ (targets_given target_colos = true ->
                In c (targets target_colos))
            /\ r = (ip, c).
Proof.
  unfold classify. split.
  - destruct colo as [c |].
    + destruct (targets_given target_colos) eqn:G; simpl.
      * destruct (existsb (String.eqb c) (targets target_colos)) eqn:E;
          simpl; [| discriminate].
        destruct c; simpl; [discriminate |]. intros [= <-].
        eexists; repeat split; [discriminate |].
        intros _. apply existsb_exists in E as [x [Hx Hc]].
        apply String.eqb_eq in Hc. subst. exact Hx.
      * destruct c; simpl; [discriminate |]. intros [= <-].
        eexists; repeat split; discriminate.
    + destruct (targets_given target_colos); discriminate.
  - intros [c [-> [Hne [Hin ->]]]].
    destruct (targets_given target_colos) eqn:G; simpl.
    + replace (existsb (String.eqb c) (targets target_colos)) with true.
      * destruct c; [contradiction | reflexivity].
      * symmetry. apply existsb_exists. exists c. split; [auto |].
        apply String.eqb_refl.
    + destruct c; [contradiction | reflexivity].
Qed.

(** ** The coordinator *)

Lemma check_ip_location_returns (w : World) (ip : string)
    (target_colos : option (list string)) (v : stop_view) :
  exists t x, check_ip_location w ip target_colos v = (t, Ret x).
Proof.
  rewrite check_ip_location_eq.
  destruct (at_entry v); [eauto |].
  destruct (ipaddress.ip_int_from_string ip); [| eauto].
  destruct (before_request v); eauto.
Qed.

Lemma future_result_clear (w : World) (target_colos : option (list string))
    (f : Future) :
  future_result w target_colos false f
  = ret (observed w target_colos (fip f)).
Proof.
  unfold future_result, observed, seen.
  rewrite !andb_false_r. fold flag_clear.
  destruct (check_ip_location_returns w (fip f) target_colos flag_clear)
    as [t [x ->]].
  reflexivity.
Qed.

Lemma remove_future_length (f : Future) (fs : list Future) :
  future_in f fs = true ->
  S (List.length (remove_future f fs)) = List.length fs.
Proof.
  unfold future_in.
  induction fs as [| g fs IH]; simpl; [discriminate |].
  destruct (same_future f g); simpl; [reflexivity |].
  intros H. rewrite IH; auto.
Qed.

Lemma cancel_all_eq (fs : list Future) :
  cancel_all fs = (map (fun f => CancelFuture (fid f)) fs, Ret tt).
Proof.
  induction fs as [| f fs IH]; [reflexivity |].
  cbn [cancel_all map]. rewrite bind_emit, IH. reflexivity.
Qed.

Lemma Forall_loop_cancel (fs : list Future) :
  Forall loop_event (map (fun f => CancelFuture (fid f)) fs).
Proof. induction fs; simpl; constructor; simpl; auto. Qed.

Section Drain.
Variable w : World.
Variable target_colos : option (list string).
Variable max_count : Z.

(** One pass over [done], started with the flag clear: it returns, its
    events are the loop's, every future taken from [futures] is
    counted, results are only added from probes, and a pass that does
    not stop removes at least one future when one of [done] was
    pending. *)
Lemma drain_spec (done : list Future) :
  forall st,
    stop_event st = false ->
    exists t st',
      drain w target_colos max_count done st = (t, Ret st')
      /\ Forall loop_event t
      /\ completed st' + List.length (futures st')
         = completed st + List.length (futures st)
      /\ List.length (futures st') <= List.length (futures st)
      /\ (Forall (probed w target_colos) (matched_results st) ->
          Forall (probed w target_colos) (matched_results st'))
      /\ (stop_event st' = false ->
          (exists f, In f done /\ future_in f (futures st) = true) ->
          List.length (futures st') < List.length (futures st)).
Proof.
  induction done as [| future rest IH]; intros st Hstop; cbn [drain].
  - exists [], st. repeat split; auto.
    intros _ [f [[] _]].
  - destruct (future_in future (futures st)) eqn:Hin.
    + pose proof (remove_future_length _ _ Hin) as Hlen.
      cbn [stop_event]. rewrite Hstop, future_result_clear, bind_ret.
      destruct (observed w target_colos (fip future)) as [r |] eqn:Hobs.
      * assert (Hr : Forall (probed w target_colos) (matched_results st) ->
                     Forall (probed w target_colos) (matched_results st ++ [r])).
        { intros H. apply Forall_app. split; [exact H |].
          constructor; [| constructor]. exists (fip future). exact Hobs. }
        unfold print. rewrite bind_emit. cbn [matched_results].
        destruct (max_count <=? _)%Z.
        -- rewrite !bind_emit, cancel_all_eq, bind_Ret.
           cbn [trace outcome fst snd ret]. rewrite app_nil_r.
           eexists _, _. split; [reflexivity |].
           cbn [futures completed matched_results stop_event].
           repeat split; try lia; try discriminate; [| exact Hr].
           repeat (constructor; [exact I |]). apply Forall_loop_cancel.
        -- edestruct IH as (t & st' & E & Ht & Hc & Hl & Hp & Hd);
             [| rewrite E]; [reflexivity |].
           cbn [futures completed matched_results stop_event] in *.
           cbn [trace outcome fst snd].
           eexists _, _. split; [reflexivity |].
           repeat split; try lia; auto.
           constructor; [exact I | exact Ht].
      * edestruct IH as (t & st' & E & Ht & Hc & Hl & Hp & Hd);
          [| rewrite E]; [reflexivity |].
        cbn [futures completed matched_results stop_event] in *.
        eexists _, _. split; [reflexivity |].
        repeat split; auto; try lia.
    + destruct (IH st Hstop) as (t & st' & E & Ht & Hc & Hl & Hp & Hd).
      rewrite E. eexists _, _. split; [reflexivity |].
      repeat split; auto.
      intros Hs [f [[<- | Hf] Hpend]]; [congruence |].
      apply Hd; eauto.
Qed.
End Drain.

Lemma observed_with_view (w : World) (view : nat -> stop_view)
    (target_colos : option (list string)) (ip : string) :
  observed (with_view w view) target_colos ip = observed w target_colos ip.
Proof. unfold observed. rewrite !check_ip_location_eq. reflexivity. Qed.

(** With the flag clear, what the workers would read from a set flag has
    no part in a pass over [done]. *)
Lemma drain_with_view (w : World) (view : nat -> stop_view)
    (target_colos : option (list string)) (max_count : Z)
    (done : list Future) :
  forall st,
    stop_event st = false ->
    drain (with_view w view) target_colos max_count done st
    = drain w target_colos max_count done st.
Proof.
  induction done as [| future rest IH]; intros st Hstop; cbn [drain];
    [reflexivity |].
  destruct (future_in future (futures st)); [| apply IH; exact Hstop].
  cbn [stop_event]. rewrite Hstop, !future_result_clear, !bind_ret.
  rewrite observed_with_view.
  destruct (observed w target_colos (fip future)) as [r |].
  - rewrite IH by reflexivity. reflexivity.
  - apply IH. reflexivity.
Qed.

Section Loop.
Variable w : World.
Variable target_colos : option (list string).
Variable max_count : Z.
Variable total : nat.

(** A run of the loop that ends does so without an exception, with
    events of the loop only and with results that all come from
    probes. *)
Lemma scan_loop_spec (fuel : nat) :
  forall n st t r,
    stop_event st = false ->
    scan_loop w target_colos max_count total fuel n st = Some (t, r) ->
    exists st',
      r = Ret st'
      /\ Forall loop_event t
      /\ (Forall (probed w target_colos) (matched_results st) ->
          Forall (probed w target_colos) (matched_results st')).
Proof.
  induction fuel as [| fuel IH]; intros n st t r Hstop H;
    cbn [scan_loop] in H;
    destruct (Nat.ltb (completed st) total && _)%bool;
    try discriminate;
    try (injection H as <- <-; exists st; repeat split; auto; constructor).
  destruct (drain_spec w target_colos max_count
              (wait_done w n (futures st)) st Hstop)
    as (t1 & st1 & E & Ht1 & _ & _ & Hp1 & _).
  rewrite E in H. cbn [bind_loop] in H.
  destruct (stop_event st1) eqn:Hs1.
  - injection H as <- <-. exists st1. rewrite app_nil_r. auto.
  - destruct (scan_loop w target_colos max_count total fuel (S n) st1)
      as [[t2 r2] |] eqn:E2.
    + destruct (IH _ _ _ _ Hs1 E2) as (st' & -> & Ht2 & Hp2).
      destruct (progress_due (completed st1) total);
        cbn in H; injection H as <- <-;
        exists st'; repeat split; auto;
        apply Forall_app; split; auto;
        try (constructor; [exact I |]); exact Ht2.
    + destruct (progress_due (completed st1) total); cbn in H;
        discriminate.
Qed.

(** The loop ends within as many iterations as there are pending
    futures, when every [wait] finds one of them done. *)
Lemma scan_loop_terminates (Hw : productive w) (fuel : nat) :
  forall n st,
    stop_event st = false ->
    List.length (futures st) <= fuel ->
    completed st + List.length (futures st) = total ->
    exists t st',
      scan_loop w target_colos max_count total fuel n st
      = Some (t, Ret st').
Proof.
  induction fuel as [| fuel IH]; intros n st Hstop Hlen Hinv;
    cbn [scan_loop];
    destruct (Nat.ltb (completed st) total) eqn:Hlt; cbn [andb];
    try (eexists _, _; reflexivity).
  - apply Nat.ltb_lt in Hlt. lia.
  - destruct (_ <? _)%Z; [| eexists _, _; reflexivity].
    apply Nat.ltb_lt in Hlt.
    assert (Hne : futures st <> []).
    { intros E. rewrite E in Hinv. simpl in Hinv. lia. }
    destruct (drain_spec w target_colos max_count
                (wait_done w n (futures st)) st Hstop)
      as (t1 & st1 & E & _ & Hc & _ & _ & Hd).
    rewrite E. cbn [bind_loop].
    destruct (stop_event st1) eqn:Hs1; [eexists _, _; reflexivity |].
    specialize (Hd eq_refl (Hw n _ Hne)).
    destruct (IH (S n) st1 Hs1) as (t2 & st2 & E2); [lia | lia |].
    rewrite E2.
    destruct (progress_due (completed st1) total); cbn;
      eexists _, _; reflexivity.
Qed.

(** The workers' readings of a set flag do not reach the loop. *)
Lemma scan_loop_with_view (view : nat -> stop_view) (fuel : nat) :
  forall n st,
    stop_event st = false ->
    scan_loop (with_view w view) target_colos max_count total fuel n st
    = scan_loop w target_colos max_count total fuel n st.
Proof.
  induction fuel as [| fuel IH]; intros n st Hstop; cbn [scan_loop];
    [reflexivity |].
  destruct (Nat.ltb (completed st) total && _)%bool; [| reflexivity].
  cbn [wait_done with_view]. rewrite drain_with_view by exact Hstop.
  destruct (drain_spec w target_colos max_count
              (wait_done w n (futures st)) st Hstop)
    as (t1 & st1 & E & _).
  rewrite E. cbn [bind_loop].
  destruct (stop_event st1) eqn:Hs1; [reflexivity |].
  rewrite IH by exact Hs1. reflexivity.
Qed.
End Loop.

Lemma submit_all_eq (all_ips : list string) :
  forall next,
    submit_all all_ips next
    = (map Submit all_ips, Ret (futures_of all_ips next)).
Proof.
  induction all_ips as [| ip rest IH]; intros next; [reflexivity |].
  cbn [submit_all map futures_of].
  rewrite bind_emit, IH, bind_Ret.
  cbn [trace outcome fst snd ret]. rewrite app_nil_r. reflexivity.
Qed.

Lemma futures_of_length (all_ips : list string) :
  forall next, List.length (futures_of all_ips next) = List.length all_ips.
Proof.
  induction all_ips as [| ip rest IH]; intros next; simpl; auto.
Qed.

Lemma max_workers_positive (all_ips : list string) :
  all_ips <> [] -> (max_workers all_ips <=? 0)%Z = false.
Proof.
  intros H. apply Z.leb_gt. unfold max_workers, MAX_CONCURRENT_THREADS.
  destruct all_ips; [contradiction |]. simpl List.length. lia.
Qed.

(** The [with] block in closed form: the pool, one submission per
    address, then the loop. *)
Lemma scan_eq (w : World) (all_ips : list string)
    (target_colos : option (list string)) (max_count : Z) :
  all_ips <> [] ->
  scan w all_ips target_colos max_count =
  match scan_loop w target_colos max_count (List.length all_ips)
          (List.length all_ips) 0 (initial_state (futures_of all_ips 0)) with
  | Some (t, r) =>
      Some (PoolCreate (max_workers all_ips) :: map Submit all_ips ++ t,
            match r with
            | Ret st' => Ret (matched_results st')
            | Raise e => Raise e
            end)
  | None => None
  end.
Proof.
  intros Hne. unfold scan, ThreadPoolExecutor.
  rewrite (max_workers_positive _ Hne), submit_all_eq.
  cbn [emit bind_loop]. rewrite futures_of_length.
  fold (initial_state (futures_of all_ips 0)).
  destruct (scan_loop _ _ _ _ _ _ _) as [[t [st' | e]] |]; reflexivity.
Qed.

(** ** Sorting *)

Section Sorting.
Context {A : Type}.
Variable le : A -> A -> bool.
Hypothesis le_total : forall a b, le a b = false -> le b a = true.

Lemma insert_by_perm (x : A) (l : list A) :
  Permutation (insert_by le x l) (x :: l).
Proof.
  induction l as [| y l IH]; simpl; [reflexivity |].
  destruct (le x y); [reflexivity |].
  rewrite IH. apply perm_swap.
Qed.

Lemma sort_by_perm (l : list A) : Permutation (sort_by le l) l.
Proof.
  induction l as [| x l IH]; simpl; [reflexivity |].
  rewrite insert_by_perm. constructor. exact IH.
Qed.

Lemma HdRel_insert_by (a x : A) (l : list A) :
  le a x = true ->
  HdRel (fun a b => le a b = true) a l ->
  HdRel (fun a b => le a b = true) a (insert_by le x l).
Proof.
  intros Hax Hl. destruct l as [| y l]; simpl.
  - constructor. exact Hax.
  - destruct (le x y); constructor; [exact Hax |].
    inversion Hl. assumption.
Qed.

Lemma insert_by_sorted (x : A) (l : list A) :
  Sorted (fun a b => le a b = true) l ->
  Sorted (fun a b => le a b = true) (insert_by le x l).
Proof.
  induction l as [| y l IH]; intros Hl; simpl.
  - repeat constructor.
  - destruct (le x y) eqn:E.
    + constructor; [exact Hl |]. constructor. exact E.
    + inversion Hl; subst. constructor; [auto |].
      apply HdRel_insert_by; [| assumption].
      apply le_total. exact E.
Qed.

Lemma sort_by_sorted (l : list A) :
  Sorted (fun a b => le a b = true) (sort_by le l).
Proof.
  induction l as [| x l IH]; simpl; [constructor |].
  apply insert_by_sorted. exact IH.
Qed.
End Sorting.

(** Sorting decorated entries by their decoration is sorting the entries
    by the key. *)
Lemma sort_by_decorated {A} (key : A -> N) (l : list A) :
  map snd (sort_by key_le (combine (map key l) l))
  = sort_by (fun a b => N.leb (key a) (key b)) l.
Proof.
  set (dec := fun x : A => (key x, x)).
  assert (Hins : forall x l',
             insert_by key_le (dec x) (map dec l')
             = map dec (insert_by (fun a b => N.leb (key a) (key b)) x l')).
  { intros x l'. induction l' as [| y l' IH]; simpl; [reflexivity |].
    unfold key_le at 1. simpl.
    destruct (N.leb (key x) (key y)); simpl; [reflexivity |].
    f_equal. exact IH. }
  assert (Hsort : sort_by key_le (map dec l)
                  = map dec (sort_by (fun a b => N.leb (key a) (key b)) l)).
  { induction l as [| x l IH]; simpl; [reflexivity |].
    rewrite IH. apply Hins. }
  replace (combine (map key l) l) with (map dec l).
  - rewrite Hsort, map_map. simpl. apply map_id.
  - clear. induction l as [| x l IH]; simpl; [reflexivity |].
    f_equal. exact IH.
Qed.

Lemma StronglySorted_filter {A} (R : A -> A -> Prop) (p : A -> bool)
    (l : list A) :
  StronglySorted R l -> StronglySorted R (filter p l).
Proof.
  induction 1 as [| x l Hl IH Hx]; simpl; [constructor |].
  destruct (p x); [| exact IH].
  constructor; [exact IH |].
  apply Forall_forall. intros y Hy. apply filter_In in Hy as [Hy _].
  rewrite Forall_forall in Hx. auto.
Qed.

(** ** The order of [str] *)

Lemma ascii_compare_lt_trans (a b c : ascii) :
  Ascii.compare a b = Lt -> Ascii.compare b c = Lt ->
  Ascii.compare a c = Lt.
Proof.
  unfold Ascii.compare. rewrite !N.compare_lt_iff. lia.
Qed.

Lemma ascii_compare_eq (a b : ascii) : Ascii.compare a b = Eq -> a = b.
Proof. apply Ascii.compare_eq_iff. Qed.

Lemma str_lt_trans (a b c : string) : str_lt a b -> str_lt b c -> str_lt a c.
Proof.
  unfold str_lt. revert b c.
  induction a as [| x a IH]; intros [| y b] [| z c]; simpl;
    try discriminate; auto.
  destruct (Ascii.compare x y) eqn:Exy; try discriminate;
    destruct (Ascii.compare y z) eqn:Eyz; try discriminate; intros H1 H2.
  - apply ascii_compare_eq in Exy, Eyz. subst.
    replace (Ascii.compare z z) with Eq
      by (symmetry; unfold Ascii.compare; apply N.compare_refl).
    eapply IH; eauto.
  - apply ascii_compare_eq in Exy. subst. rewrite Eyz. reflexivity.
  - apply ascii_compare_eq in Eyz. subst. rewrite Exy. reflexivity.
  - rewrite (ascii_compare_lt_trans _ _ _ Exy Eyz). reflexivity.
Qed.

Lemma leb_neq_lt (a b : string) :
  String.leb a b = true -> a <> b -> str_lt a b.
Proof.
  unfold String.leb, str_lt. intros H Hne.
  destruct (String.compare a b) eqn:E; try discriminate; [| reflexivity].
  apply String.compare_eq_iff in E. contradiction.
Qed.

Lemma string_leb_total (a b : string) :
  String.leb a b = false -> String.leb b a = true.
Proof.
  intros H. destruct (String.leb_total a b) as [E | E]; congruence.
Qed.

(** ** Truncation and sorting *)

Lemma mapM_addresses (l : list (string * string)) :
  Forall valid_entry l ->
  mapM (fun x => ipaddress.IPv4Address (fst x)) l
  = ret (map (fun x => address_value (fst x)) l).
Proof.
  induction 1 as [| x l Hx Hl IH]; [reflexivity |].
  cbn [mapM map]. rewrite IH.
  unfold ipaddress.IPv4Address, address_value.
  unfold valid_entry, valid_address in Hx.
  destruct (ipaddress.ip_int_from_string (fst x)); [| contradiction].
  rewrite !bind_ret. reflexivity.
Qed.

Lemma sort_by_address_eq (l : list (string * string)) :
  Forall valid_entry l ->
  sort_by_address l = ret (sort_by addr_leb l).
Proof.
  intros H. unfold sort_by_address.
  rewrite (mapM_addresses l H), bind_ret.
  rewrite (sort_by_decorated (fun x => address_value (fst x))).
  reflexivity.
Qed.

Lemma In_firstn {A} (x : A) (n : nat) :
  forall l, In x (firstn n l) -> In x l.
Proof.
  induction n as [| n IH]; intros [| y l]; simpl; try tauto.
  intros [H | H]; auto.
Qed.

Lemma Sorted_impl {A} (R R' : A -> A -> Prop) (l : list A) :
  (forall a b, R a b -> R' a b) -> Sorted R l -> Sorted R' l.
Proof.
  intros HR. induction 1 as [| a l Hl IH Hd]; constructor; auto.
  destruct Hd; constructor; auto.
Qed.

Lemma slice_to_prefix {A} (l : list A) (k : Z) :
  exists n, slice_to l k = firstn n l.
Proof. unfold slice_to. destruct (0 <=? k)%Z; eauto. Qed.

Lemma truncate_prefix (l : list (string * string)) (max_count : Z) :
  exists n, truncate l max_count = firstn n l.
Proof.
  unfold truncate. destruct (max_count <? _)%Z.
  - apply slice_to_prefix.
  - exists (List.length l). symmetry. apply firstn_all.
Qed.

Lemma truncate_firstn (l : list (string * string)) (max_count : Z) :
  (0 < max_count)%Z ->
  truncate l max_count = firstn (Z.to_nat max_count) l.
Proof.
  intros Hq. unfold truncate, slice_to.
  destruct (max_count <? Z.of_nat (List.length l))%Z eqn:E.
  - replace (0 <=? max_count)%Z with true
      by (symmetry; apply Z.leb_le; lia).
    reflexivity.
  - apply Z.ltb_ge in E. symmetry. apply firstn_all2. lia.
Qed.

Lemma aggregate_eq (l : list (string * string)) (max_count : Z) :
  Forall valid_entry l ->
  aggregate l max_count = ret (sort_by addr_leb (truncate l max_count)).
Proof.
  intros H. unfold aggregate. apply sort_by_address_eq.
  destruct (truncate_prefix l max_count) as [n ->].
  apply Forall_forall. intros x Hx. rewrite Forall_forall in H.
  apply H. eapply In_firstn; eauto.
Qed.

Lemma addr_leb_total (a b : string * string) :
  addr_leb a b = false -> addr_leb b a = true.
Proof.
  unfold addr_leb. rewrite N.leb_gt, N.leb_le. lia.
Qed.

Lemma sort_by_addr_sorted (l : list (string * string)) :
  StronglySorted addr_le (sort_by addr_leb l).
Proof.
  apply Sorted_StronglySorted.
  - intros a b c. unfold addr_le. lia.
  - eapply Sorted_impl; [| apply (sort_by_sorted addr_leb addr_leb_total)].
    intros a b. unfold addr_leb, addr_le. apply N.leb_le.
Qed.

(** C2. For a positive quota and a match list of valid addresses, lines
    169-173 keep the first [max_count] entries of the completion-ordered
    list (the tail is dropped), then sort what was kept by the number the
    address denotes, ascending; the result is a permutation of the kept
    entries and so has at most [max_count] of them. *)
Theorem aggregate_truncates_then_sorts
    (matched_results : list (string * string)) (max_count : Z) :
  (0 < max_count)%Z ->
  Forall valid_entry matched_results ->
  let kept := firstn (Z.to_nat max_count) matched_results in
  truncate matched_results max_count = kept
  /\ (exists dropped, matched_results = kept ++ dropped)
  /\ aggregate matched_results max_count = ret (sort_by addr_leb kept)
  /\ Permutation (sort_by addr_leb kept) kept
  /\ StronglySorted addr_le (sort_by addr_leb kept)
  /\ (Z.of_nat (List.length (sort_by addr_leb kept)) <= max_count)%Z.
Proof.
  intros Hq Hv kept. subst kept.
  repeat split.
  - apply truncate_firstn. exact Hq.
  - exists (skipn (Z.to_nat max_count) matched_results).
    symmetry. apply firstn_skipn.
  - rewrite (aggregate_eq _ _ Hv), (truncate_firstn _ _ Hq). reflexivity.
  - apply sort_by_perm.
  - apply sort_by_addr_sorted.
  - rewrite (Permutation_length (sort_by_perm addr_leb _)).
    pose proof (firstn_le_length (Z.to_nat max_count) matched_results).
    lia.
Qed.

(** ** Grouping and the report *)

Lemma groups_get_append (c k ip : string) (g : groups) :
  groups_get c (groups_append k ip g)
  = if String.eqb c k then groups_get c g ++ [ip] else groups_get c g.
Proof.
  induction g as [| [k' ips] g IH]; simpl.
  - destruct (String.eqb c k); reflexivity.
  - destruct (String.eqb k k') eqn:E; simpl.
    + apply String.eqb_eq in E. subst k'.
      destruct (String.eqb c k); reflexivity.
    + rewrite IH. destruct (String.eqb c k') eqn:E'; [| reflexivity].
      apply String.eqb_eq in E'. subst k'.
      rewrite String.eqb_sym, E. reflexivity.
Qed.

Lemma groups_get_fold (c : string) (l : list (string * string)) :
  forall g,
    groups_get c (fold_left (fun g x => groups_append (snd x) (fst x) g) l g)
    = groups_get c g ++ ips_of c l.
Proof.
  unfold ips_of.
  induction l as [| x l IH]; intros g; simpl.
  - symmetry. apply app_nil_r.
  - rewrite IH, groups_get_append, (String.eqb_sym c).
    destruct (String.eqb (snd x) c); simpl; [| reflexivity].
    rewrite <- app_assoc. reflexivity.
Qed.

Lemma groups_get_all (c : string) (l : list (string * string)) :
  groups_get c (group_all l) = ips_of c l.
Proof. unfold group_all. rewrite groups_get_fold. reflexivity. Qed.

Lemma keys_append_In (c k ip : string) (g : groups) :
  In c (map fst (groups_append k ip g)) <-> c = k \/ In c (map fst g).
Proof.
  induction g as [| [k' ips] g IH]; simpl.
  - intuition.
  - destruct (String.eqb k k') eqn:E; simpl.
    + apply String.eqb_eq in E. subst k'. intuition.
    + rewrite IH. intuition.
Qed.

Lemma keys_append_NoDup (k ip : string) (g : groups) :
  NoDup (map fst g) -> NoDup (map fst (groups_append k ip g)).
Proof.
  induction g as [| [k' ips] g IH]; simpl; intros H.
  - repeat constructor. intros [].
  - destruct (String.eqb k k') eqn:E; simpl; [exact H |].
    inversion H as [| ? ? Hnin Hnd]; subst.
    constructor; [| auto].
    rewrite keys_append_In. intros [-> | Hin]; [| contradiction].
    rewrite String.eqb_refl in E. discriminate.
Qed.

Lemma keys_fold (l : list (string * string)) :
  forall g,
    NoDup (map fst g) ->
    let g' := fold_left (fun g x => groups_append (snd x) (fst x) g) l g in
    NoDup (map fst g')
    /\ forall c, In c (map fst g') <-> In c (map fst g) \/ In c (map snd l).
Proof.
  induction l as [| x l IH]; intros g Hg; simpl.
  - split; [exact Hg |]. intuition.
  - destruct (IH _ (keys_append_NoDup (snd x) (fst x) g Hg)) as [Hnd Hin].
    split; [exact Hnd |].
    intros c. rewrite Hin, keys_append_In. intuition.
Qed.

Lemma Sorted_leb_NoDup (l : list string) :
  Sorted (fun a b => String.leb a b = true) l -> NoDup l ->
  StronglySorted str_lt l.
Proof.
  intros Hs Hn. apply Sorted_StronglySorted.
  - intros a b c. apply str_lt_trans.
  - induction Hs as [| a l Hl IH Hd]; constructor.
    + apply IH. inversion Hn. assumption.
    + destruct Hd as [| b l Hab]; constructor.
      apply leb_neq_lt; [exact Hab |].
      inversion Hn as [| ? ? Hnin _]; subst.
      intros ->. apply Hnin. left. reflexivity.
Qed.

Lemma enumerate_nth {A} (xs : list A) :
  forall start n,
    nth_error (enumerate xs start) n
    = option_map (fun x => (start + n, x)) (nth_error xs n).
Proof.
  induction xs as [| x xs IH]; intros start [| n]; simpl; try reflexivity.
  - rewrite Nat.add_0_r. reflexivity.
  - rewrite IH. rewrite Nat.add_succ_r. reflexivity.
Qed.

Lemma group_lines_nth (colo : string) (ips : list string) (n : nat) :
  nth_error (group_lines colo ips) n
  = option_map (fun ip => report_line ip colo (n + 1)) (nth_error ips n).
Proof.
  unfold group_lines. rewrite nth_error_map, enumerate_nth.
  destruct (nth_error ips n); simpl; [| reflexivity].
  rewrite Nat.add_comm. reflexivity.
Qed.

(** C3. The report lists the codes in strictly ascending lexicographic
    order, each code of the list once; under a code come the addresses of
    its entries in the order of the list, hence in ascending numeric order
    when the list is sorted; the line of the [n]-th address of a group
    (from 0) is [<address>#<code> <n+1>] followed by a line feed, so the
    index starts at 1 in every group and grows by 1; the file holds these
    lines one after the other. *)
Theorem report_order_and_format
    (matched_results : list (string * string)) (output_file : string) :
  let codes := sort_by String.leb (map fst (group_all matched_results)) in
  report_lines matched_results
  = flat_map (fun colo => group_lines colo (ips_of colo matched_results))
             codes
  /\ StronglySorted str_lt codes
  /\ (forall colo, In colo codes <-> In colo (map snd matched_results))
  /\ (forall colo,
        StronglySorted addr_le matched_results ->
        StronglySorted
          (fun a b => (address_value a <= address_value b)%N)
          (ips_of colo matched_results))
  /\ (forall colo ips n,
        nth_error (group_lines colo ips) n
        = option_map
            (fun ip => (ip ++ "#" ++ colo ++ " " ++ Str.of_nat (n + 1)
                        ++ newline)%string)
            (nth_error ips n))
  /\ write_report matched_results output_file
     = ([WriteFile output_file
           (String.concat "" (report_lines matched_results))], Ret tt).
Proof.
  intros codes.
  destruct (keys_fold matched_results [] (NoDup_nil _)) as [Hnd Hin].
  fold (group_all matched_results) in Hnd, Hin.
  pose proof (sort_by_perm String.leb (map fst (group_all matched_results)))
    as Hperm.
  fold codes in Hperm.
  repeat split.
  - unfold report_lines. fold codes. apply flat_map_ext.
    intros c. rewrite groups_get_all. reflexivity.
  - apply Sorted_leb_NoDup.
    + apply (sort_by_sorted String.leb string_leb_total).
    + eapply Permutation_NoDup; [symmetry; exact Hperm | exact Hnd].
  - intros H. apply (Permutation_in _ Hperm) in H.
    apply Hin in H as [[] | H]. exact H.
  - intros H. apply (Permutation_in _ (Permutation_sym Hperm)).
    apply Hin. right. exact H.
  - intros colo Hs. unfold ips_of.
    apply (StronglySorted_filter _ (fun x => String.eqb (snd x) colo)) in Hs.
    induction Hs as [| x l Hl IH Hx]; simpl; constructor; [exact IH |].
    apply Forall_forall. intros y Hy.
    apply in_map_iff in Hy as [z [<- Hz]].
    rewrite Forall_forall in Hx. apply (Hx z Hz).
  - intros colo ips n. apply group_lines_nth.
Qed.

(** ** Candidate addresses *)

Lemma expand_ip_range_eq (w : World) (ip_range : string) :
  expand_ip_range w ip_range =
  match ip_network w ip_range with
  | ipaddress.IPv4Network _ _ => ([], Ret (range_addresses w ip_range))
  | ipaddress.IPv6Network => ([Printed (MsgNonIPv4 ip_range)], Ret [])
  | ipaddress.NetworkValueError =>
      ([Printed (MsgParseFailed ip_range)], Ret [])
  end.
Proof.
  unfold expand_ip_range, ip_network_strict, range_addresses.
  destruct (ip_network w ip_range); reflexivity.
Qed.

Lemma expand_ip_range_value (w : World) (ip_range : string) :
  exists t, expand_ip_range w ip_range
            = (t, Ret (range_addresses w ip_range)).
Proof.
  rewrite expand_ip_range_eq. unfold range_addresses.
  destruct (ip_network w ip_range); eauto.
Qed.

(** The expansion never raises: a range that yields nothing is passed
    over and the following ranges are still expanded. *)
Lemma expand_all_value (w : World) (ip_ranges : list string) :
  forall all_ips,
  exists t,
    expand_all w ip_ranges all_ips
    = (t, Ret (all_ips ++ flat_map (range_addresses w) ip_ranges)).
Proof.
  induction ip_ranges as [| r rest IH]; intros all_ips; cbn [expand_all].
  - exists []. rewrite app_nil_r. reflexivity.
  - destruct (expand_ip_range_value w r) as [t ->].
    rewrite bind_Ret. unfold print. rewrite bind_emit.
    destruct (IH (all_ips ++ range_addresses w r)) as [t' ->].
    cbn [trace outcome fst snd flat_map]. rewrite <- app_assoc. eauto.
Qed.

Lemma list_of_set_NoDup (w : World) (xs : list string) :
  NoDup (list_of_set w xs).
Proof.
  unfold list_of_set.
  eapply Permutation_NoDup; [symmetry; apply sort_by_perm |].
  apply NoDup_nodup.
Qed.

Lemma list_of_set_In (w : World) (xs : list string) (x : string) :
  In x (list_of_set w xs) <-> In x xs.
Proof.
  unfold list_of_set. rewrite <- (nodup_In string_dec xs x).
  split; apply Permutation_in; [| symmetry]; apply sort_by_perm.
Qed.

Lemma range_addresses_In (w : World) (ip_range s : string) :
  In s (range_addresses w ip_range) <->
  exists network_address prefixlen v,
    ip_network w ip_range
    = ipaddress.IPv4Network network_address prefixlen
    /\ (network_address <= v < network_address + 2 ^ (32 - prefixlen))%N
    /\ s = ipaddress.to_string v.
Proof.
  unfold range_addresses.
  destruct (ip_network w ip_range) as [a p | |];
    try (split; [intros [] | intros (? & ? & ? & ? & _); discriminate]).
  unfold ipaddress.addresses, ipaddress.num_addresses.
  rewrite map_map, in_map_iff. split.
  - intros [n [<- Hn]]. apply in_seq in Hn.
    exists a, p, (a + N.of_nat n)%N. repeat split; lia.
  - intros (a' & p' & v & [= <- <-] & Hv & ->).
    exists (N.to_nat (v - a)). split.
    + f_equal. lia.
    + apply in_seq. lia.
Qed.

Lemma submitted_app (t1 t2 : list event) :
  submitted (t1 ++ t2) = submitted t1 ++ submitted t2.
Proof. apply flat_map_app. Qed.

Lemma submitted_Submit (ips : list string) :
  submitted (map Submit ips) = ips.
Proof.
  induction ips as [| ip ips IH]; simpl; [reflexivity |].
  f_equal. exact IH.
Qed.

Lemma submitted_loop (t : list event) :
  Forall loop_event t -> submitted t = [].
Proof.
  induction 1 as [| ev t Hev _ IH]; [reflexivity |].
  destruct ev; try contradiction; exact IH.
Qed.

Lemma scan_nil (w : World) (target_colos : option (list string))
    (max_count : Z) :
  scan w [] target_colos max_count = Some ([], Raise ValueError).
Proof. reflexivity. Qed.

(** A scan that ends: the pool is created, every address is submitted
    once, then come events of the loop only; no exception reaches the
    caller and every result comes from a probe. *)
Lemma scan_spec (w : World) (all_ips : list string)
    (target_colos : option (list string)) (max_count : Z)
    (t : list event) (r : res (list (string * string))) :
  all_ips <> [] ->
  scan w all_ips target_colos max_count = Some (t, r) ->
  exists t' ms,
    t = PoolCreate (max_workers all_ips) :: map Submit all_ips ++ t'
    /\ Forall loop_event t'
    /\ r = Ret ms
    /\ Forall (probed w target_colos) ms.
Proof.
  intros Hne H. rewrite (scan_eq _ _ _ _ Hne) in H.
  destruct (scan_loop _ _ _ _ _ _ _) as [[t' r'] |] eqn:E;
    [| discriminate].
  apply scan_loop_spec in E as (st' & -> & Ht & Hp); [| reflexivity].
  injection H as <- <-. exists t', (matched_results st').
  repeat split; auto; apply Hp; constructor.
Qed.

Lemma scan_submitted (w : World) (all_ips : list string)
    (target_colos : option (list string)) (max_count : Z)
    (t : list event) (r : res (list (string * string))) :
  scan w all_ips target_colos max_count = Some (t, r) ->
  submitted t = all_ips.
Proof.
  destruct all_ips as [| ip rest] eqn:E.
  - rewrite scan_nil. intros [= <- _]. reflexivity.
  - rewrite <- E. intros H.
    apply scan_spec in H as (t' & ms & -> & Ht & _); [| subst; discriminate].
    change (PoolCreate (max_workers all_ips) :: map Submit all_ips ++ t')
      with ([PoolCreate (max_workers all_ips)] ++ map Submit all_ips ++ t').
    rewrite !submitted_app, submitted_Submit, (submitted_loop _ Ht).
    simpl. apply app_nil_r.
Qed.

(** ** What a matched result is *)

Lemma check_ip_location_some (w : World) (ip : string)
    (target_colos : option (list string)) (v : stop_view)
    (r : string * string) :
  outcome (check_ip_location w ip target_colos v) = Ret (Some r) <->
  at_entry v = false /\ before_request v = false /\ valid_address ip
  /\ exists status_code text c,
       http w (probe_url ip) = HttpResponse status_code text
       /\ error_status status_code = false
       /\ first_colo (Str.splitlines text) = Some c
       /\ c <> EmptyString
       /\ (targets_given target_colos = true ->
           In c (targets target_colos))
       /\ r = (ip, c).
Proof.
  rewrite check_ip_location_eq. unfold valid_address. split.
  - destruct (at_entry v); [discriminate |].
    destruct (ipaddress.ip_int_from_string ip); [| discriminate].
    destruct (before_request v); [discriminate |].
    cbn [outcome snd].
    destruct (http w (probe_url ip)) as [f | status_code text];
      [discriminate |].
    destruct (error_status status_code) eqn:Es; [discriminate |].
    intros [= H]. apply classify_some in H as (c & Hc & Hne & Hin & ->).
    repeat split; try discriminate.
    exists status_code, text, c. repeat split; auto.
  - intros (-> & -> & Hv & status_code & text & c & -> & -> & Hc & Hr).
    destruct (ipaddress.ip_int_from_string ip); [| contradiction].
    cbn [outcome snd]. do 2 f_equal.
    apply classify_some. exists c. rewrite Hc. tauto.
Qed.

Lemma observed_some (w : World) (target_colos : option (list string))
    (ip : string) (r : string * string) :
  observed w target_colos ip = Some r <->
  outcome (check_ip_location w ip target_colos flag_clear) = Ret (Some r).
Proof.
  unfold observed.
  destruct (check_ip_location_returns w ip target_colos flag_clear)
    as [t [x ->]].
  cbn [outcome snd]. split; [intros -> | intros [= ->]]; reflexivity.
Qed.

Lemma rstrip_cons (c : ascii) (s : string) :
  Str.rstrip (String c s) =
  match Str.rstrip s with
  | EmptyString => if Str.isspace c then EmptyString else String c EmptyString
  | r => String c r
  end.
Proof. reflexivity. Qed.

Lemma rstrip_idempotent (s : string) :
  Str.rstrip (Str.rstrip s) = Str.rstrip s.
Proof.
  induction s as [| c s IH]; [reflexivity |].
  rewrite rstrip_cons.
  destruct (Str.rstrip s) as [| c' r] eqn:E.
  - destruct (Str.isspace c) eqn:Ec; [reflexivity |].
    rewrite rstrip_cons. simpl. rewrite Ec. reflexivity.
  - rewrite rstrip_cons, IH. reflexivity.
Qed.

Lemma lstrip_head (s : string) :
  match Str.lstrip s with
  | EmptyString => True
  | String c _ => Str.isspace c = false
  end.
Proof.
  induction s as [| c s IH]; simpl; [exact I |].
  destruct (Str.isspace c) eqn:E; [exact IH | exact E].
Qed.

Lemma lstrip_rstrip (s : string) :
  match s with
  | EmptyString => True
  | String c _ => Str.isspace c = false
  end ->
  Str.lstrip (Str.rstrip s) = Str.rstrip s.
Proof.
  destruct s as [| c s]; [reflexivity |]. intros Hc.
  rewrite rstrip_cons.
  destruct (Str.rstrip s); [rewrite Hc |]; simpl; rewrite Hc; reflexivity.
Qed.

(** [strip] leaves nothing to strip. *)
Lemma strip_idempotent (s : string) : Str.strip (Str.strip s) = Str.strip s.
Proof.
  unfold Str.strip.
  rewrite (lstrip_rstrip _ (lstrip_head s)). apply rstrip_idempotent.
Qed.

Lemma first_colo_stripped (lines : list string) (c : string) :
  first_colo lines = Some c -> Str.strip c = c.
Proof.
  unfold first_colo. destruct (find _ lines); [| discriminate].
  intros [= <-]. apply strip_idempotent.
Qed.

Lemma upper_char_idempotent (c : ascii) :
  Str.upper_char (Str.upper_char c) = Str.upper_char c.
Proof.
  destruct c as [[] [] [] [] [] [] [] []]; reflexivity.
Qed.

Lemma upper_idempotent (s : string) : Str.upper (Str.upper s) = Str.upper s.
Proof.
  induction s as [| c s IH]; simpl; [reflexivity |].
  rewrite upper_char_idempotent, IH. reflexivity.
Qed.

Lemma normalised_targets_upper (d : option (list string)) (c : string) :
  In c (targets (normalise_targets d)) -> Str.upper c = c.
Proof.
  destruct d as [[| x xs] |]; cbn [normalise_targets targets];
    try (intros Hc; destruct Hc; fail).
  intros H. apply in_map_iff in H as [y [<- _]]. apply upper_idempotent.
Qed.

Lemma probed_valid (w : World) (target_colos : option (list string))
    (ms : list (string * string)) :
  Forall (probed w target_colos) ms -> Forall valid_entry ms.
Proof.
  apply Forall_impl. intros r [ip H].
  apply observed_some, check_ip_location_some in H
    as (_ & _ & Hv & _ & _ & c & _ & _ & _ & _ & _ & ->).
  exact Hv.
Qed.

(** Lines 129-173 in closed form. *)
Lemma result_set_spec (w : World) (all_ips : list string)
    (target_colos : option (list string)) (max_count : Z)
    (t : list event) (r : res (list (string * string))) :
  all_ips <> [] ->
  result_set w all_ips target_colos max_count = Some (t, r) ->
  exists ms,
    scan w all_ips target_colos max_count = Some (t, Ret ms)
    /\ Forall (probed w target_colos) ms
    /\ r = Ret (sort_by addr_leb (truncate ms max_count)).
Proof.
  intros Hne H. unfold result_set in H.
  destruct (scan w all_ips target_colos max_count) as [[t0 r0] |] eqn:E;
    [| discriminate].
  destruct (scan_spec _ _ _ _ _ _ Hne E) as (t' & ms & _ & _ & -> & Hp).
  rewrite bind_Ret, (aggregate_eq _ _ (probed_valid _ _ _ Hp)) in H.
  cbn [trace outcome ret fst snd] in H. rewrite app_nil_r in H.
  injection H as <- <-. exists ms. auto.
Qed.

(** ** The claims about the probe *)

(** C1. A probe returns the match [(ip, c)] exactly when it was not
    cancelled, the address is valid, the answer has no error status, [c]
    is the code of the first [colo=] line, [c] is not empty and, with
    target codes given, [c] is one of them; with no target codes every
    such address is matched.  For the target codes of [main], which are
    in upper case, the code of a match then belongs to the target set
    also after upper-casing: it is its own upper-case form. *)
Theorem matched_code_belongs_to_the_target_set
    (w : World) (ip : string) (target_colos : option (list string))
    (v : stop_view) (r : string * string) :
  (outcome (check_ip_location w ip target_colos v) = Ret (Some r) <->
   at_entry v = false /\ before_request v = false /\ valid_address ip
   /\ exists status_code text c,
        http w (probe_url ip) = HttpResponse status_code text
        /\ error_status status_code = false
        /\ first_colo (Str.splitlines text) = Some c
        /\ c <> EmptyString
        /\ (targets_given target_colos = true ->
            In c (targets target_colos))
        /\ r = (ip, c))
  /\ (forall d,
        target_colos = normalise_targets d ->
        targets_given target_colos = true ->
        outcome (check_ip_location w ip target_colos v) = Ret (Some r) ->
        In (snd r) (targets target_colos)
        /\ In (Str.upper (snd r)) (targets target_colos)
        /\ Str.upper (snd r) = snd r).
Proof.
  split; [apply check_ip_location_some |].
  intros d -> Hg H.
  apply check_ip_location_some in H
    as (_ & _ & _ & s & text & c & _ & _ & _ & _ & Hin & ->).
  specialize (Hin Hg). cbn [snd].
  pose proof (normalised_targets_upper d c Hin) as Hu.
  rewrite Hu. auto.
Qed.

(** The test is made on the code as it was received: on the answer
    [colo=lax] with the target code [lax] given on the command line the
    upper-cased code [LAX] is in the target set, yet the probe, which
    compares [lax] itself, returns [None]. *)
Lemma code_is_not_uppercased_before_the_test :
  let target_colos := normalise_targets (Some ["lax"]) in
  let result :=
    outcome (check_ip_location (world_answering "colo=lax") "1.1.1.1"
               target_colos flag_clear) in
  In (Str.upper "lax") (targets target_colos)
  /\ specified_outcome "1.1.1.1" target_colos "colo=lax"
     = Some ("1.1.1.1", "lax")
  /\ result = Ret None
  /\ result <> Ret (specified_outcome "1.1.1.1" target_colos "colo=lax").
Proof.
  cbv zeta. split; [vm_compute; left; reflexivity |].
  split; [vm_compute; reflexivity |].
  split; [vm_compute; reflexivity |].
  vm_compute. discriminate.
Qed.

(** C4. A probe entered with the flag set performs no event at all, so
    no request and no diagnostic, and returns at once; a probe that finds
    the flag set just before the request sends none.  What such a probe
    returns never reaches the coordinator: a scan counts and records the
    same whatever the workers read from a set flag. *)
Theorem cancelled_probe_is_never_attempted
    (w : World) (ip : string) (target_colos : option (list string))
    (v : stop_view) :
  (at_entry v = true ->
   check_ip_location w ip target_colos v = ([], Ret None))
  /\ (before_request v = true ->
      outcome (check_ip_location w ip target_colos v) = Ret None
      /\ forall url timeout,
           ~ In (HttpGet url timeout)
                (trace (check_ip_location w ip target_colos v)))
  /\ (forall view all_ips max_count,
        scan (with_view w view) all_ips target_colos max_count
        = scan w all_ips target_colos max_count).
Proof.
  rewrite check_ip_location_eq.
  split; [| split].
  - intros ->. reflexivity.
  - intros Hb. rewrite Hb. split.
    + destruct (at_entry v); [reflexivity |].
      destruct (ipaddress.ip_int_from_string ip); reflexivity.
    + intros url timeout.
      destruct (at_entry v); [intros [] |].
      destruct (ipaddress.ip_int_from_string ip); cbn [trace fst In];
        [tauto |].
      intros [[=] | []].
  - intros view [| ip0 rest] max_count; [reflexivity |].
    rewrite !scan_eq by discriminate.
    rewrite scan_loop_with_view by reflexivity. reflexivity.
Qed.

(** C5. The probe never raises.  A failed request (refused, timed out,
    malformed), an error status and an answer without a [colo=] line all
    end in [None]; so does an address that is not valid, and a probe that
    was not cancelled on entry then performs nothing but the print of the
    diagnostic. *)
Theorem probe_failures_are_swallowed
    (w : World) (ip : string) (target_colos : option (list string))
    (v : stop_view) :
  (exists t x, check_ip_location w ip target_colos v = (t, Ret x))
  /\ (forall f,
        http w (probe_url ip) = HttpFailure f ->
        outcome (check_ip_location w ip target_colos v) = Ret None)
  /\ (forall status_code text,
        http w (probe_url ip) = HttpResponse status_code text ->
        error_status status_code = true ->
        outcome (check_ip_location w ip target_colos v) = Ret None)
  /\ (forall status_code text,
        http w (probe_url ip) = HttpResponse status_code text ->
        first_colo (Str.splitlines text) = None ->
        outcome (check_ip_location w ip target_colos v) = Ret None)
  /\ (~ valid_address ip ->
      outcome (check_ip_location w ip target_colos v) = Ret None
      /\ (at_entry v = false ->
          check_ip_location w ip target_colos v
          = ([Printed (MsgInvalidIP ip)], Ret None))).
Proof.
  split; [apply check_ip_location_returns |].
  rewrite check_ip_location_eq. unfold valid_address.
  split; [| split; [| split]].
  - intros f ->.
    destruct (at_entry v); [reflexivity |].
    destruct (ipaddress.ip_int_from_string ip); [| reflexivity].
    destruct (before_request v); reflexivity.
  - intros status_code text -> ->.
    destruct (at_entry v); [reflexivity |].
    destruct (ipaddress.ip_int_from_string ip); [| reflexivity].
    destruct (before_request v); reflexivity.
  - intros status_code text -> Hc. rewrite Hc.
    destruct (at_entry v); [reflexivity |].
    destruct (ipaddress.ip_int_from_string ip); [| reflexivity].
    destruct (before_request v); [reflexivity |].
    cbn [outcome snd]. destruct (error_status status_code); [reflexivity |].
    unfold classify. destruct (targets_given target_colos); reflexivity.
  - intros Hinv.
    destruct (ipaddress.ip_int_from_string ip);
      [exfalso; apply Hinv; discriminate |].
    split; [destruct (at_entry v); reflexivity |].
    intros ->. reflexivity.
Qed.

(** ** The claims about a whole run *)

(** C8, as the code has it.  Every record of the result set carries a
    valid address and a code that is not empty and has no white space
    around it; with target codes given the code is one of them, and then
    it is its own upper-case form, as the target codes of [main] are.
    Neither the length of a code nor its letters are checked. *)
Theorem result_set_records_are_well_formed
    (w : World) (all_ips : list string)
    (target_colos : option (list string)) (max_count : Z)
    (t : list event) (rs : list (string * string)) :
  result_set w all_ips target_colos max_count = Some (t, Ret rs) ->
  forall ip c,
    In (ip, c) rs ->
    valid_address ip
    /\ c <> EmptyString
    /\ Str.strip c = c
    /\ (targets_given target_colos = true -> In c (targets target_colos))
    /\ (forall d,
          target_colos = normalise_targets d ->
          targets_given target_colos = true ->
          Str.upper c = c).
Proof.
  intros H ip c Hin.
  assert (Hne : all_ips <> []).
  { intros ->. unfold result_set in H. rewrite scan_nil in H.
    discriminate. }
  apply result_set_spec in H as (ms & _ & Hp & [= ->]); [| exact Hne].
  apply (Permutation_in _ (sort_by_perm addr_leb _)) in Hin.
  destruct (truncate_prefix ms max_count) as [n E]. rewrite E in Hin.
  apply In_firstn in Hin.
  rewrite Forall_forall in Hp. destruct (Hp _ Hin) as [ip' Hobs].
  apply observed_some, check_ip_location_some in Hobs
    as (_ & _ & Hv & status_code & text & c' & _ & _ & Hc & Hnz & Ht & Hr).
  injection Hr as -> ->.
  repeat split; auto.
  - eapply first_colo_stripped; eauto.
  - intros d -> Hg. apply (normalised_targets_upper d). auto.
Qed.

(** C8 as stated fails on the answer [colo=ab]: with no target codes the
    result set holds the record [("1.1.1.1", "ab")], whose code is not a
    three-letter upper-case code. *)
Lemma location_code_is_not_checked :
  option_map outcome
    (result_set (world_answering "colo=ab") ["1.1.1.1"] None 10)
  = Some (Ret [("1.1.1.1", "ab")])
  /\ is_location_code "ab" = false.
Proof. split; vm_compute; reflexivity. Qed.

Lemma checked_max_count_positive (args : Args) :
  (0 < i args)%Z -> checked_max_count args = ret (i args).
Proof.
  intros H. unfold checked_max_count.
  replace (i args <=? 0)%Z with false by (symmetry; apply Z.leb_gt; lia).
  reflexivity.
Qed.

(** C9. With a quota that is zero or negative [main] prints the
    diagnostic and leaves through [sys.exit(1)]: that print is its only
    event, so nothing was fetched, no pool was created and no probe was
    submitted, and the exit status is 1. *)
Theorem nonpositive_quota_is_fatal (w : World) (args : Args) :
  (i args <= 0)%Z ->
  main w args = Some ([Printed MsgInvalidMax], Raise (SystemExit 1))
  /\ exit_status (Raise (SystemExit 1)) = 1%Z.
Proof.
  intros H. split; [| reflexivity].
  unfold main, checked_max_count.
  replace (i args <=? 0)%Z with true by (symmetry; apply Z.leb_le; lia).
  reflexivity.
Qed.

Lemma scan_terminates (w : World) (all_ips : list string)
    (target_colos : option (list string)) (max_count : Z) :
  productive w ->
  all_ips <> [] ->
  exists t ms,
    scan w all_ips target_colos max_count = Some (t, Ret ms)
    /\ Forall (probed w target_colos) ms.
Proof.
  intros Hw Hne.
  destruct (scan_loop_terminates w target_colos max_count
              (List.length all_ips) Hw (List.length all_ips) 0
              (initial_state (futures_of all_ips 0)))
    as (t & st' & E).
  - reflexivity.
  - simpl. rewrite futures_of_length. lia.
  - simpl. apply futures_of_length.
  - assert (H : scan w all_ips target_colos max_count
                = Some (PoolCreate (max_workers all_ips)
                          :: map Submit all_ips ++ t,
                        Ret (matched_results st'))).
    { rewrite (scan_eq _ _ _ _ Hne), E. reflexivity. }
    eexists _, _. split; [exact H |].
    apply scan_spec in H as (? & ms & _ & _ & [= <-] & Hp); auto.
Qed.


(** ** Instances *)

Lemma productive_when_all_done (w : World) :
  (forall n pending, wait_done w n pending = pending) -> productive w.
Proof.
  intros Hw n [| f pending] Hne; [contradiction |].
  exists f. rewrite Hw. split; [left; reflexivity |].
  unfold future_in, same_future. simpl. rewrite Nat.eqb_refl. reflexivity.
Qed.

(** The report of a sorted list with two codes. *)
Lemma report_lines_example :
  report_lines [("9.0.0.0", "SJC"); ("10.0.0.0", "SJC"); ("10.0.0.2", "LAX")]
  = [("10.0.0.2#LAX 1" ++ newline)%string;
     ("9.0.0.0#SJC 1" ++ newline)%string;
     ("10.0.0.0#SJC 2" ++ newline)%string].
Proof. reflexivity. Qed.

(** The match lists a scan returns hold valid addresses only. *)
Lemma scan_results_are_valid (w : World) (all_ips : list string)
    (target_colos : option (list string)) (max_count : Z)
    (t : list event) (ms : list (string * string)) :
  scan w all_ips target_colos max_count = Some (t, Ret ms) ->
  Forall valid_entry ms.
Proof.
  intros H. destruct all_ips as [| ip rest] eqn:E.
  - rewrite scan_nil in H. discriminate.
  - rewrite <- E in H.
    apply scan_spec in H as (_ & ms' & _ & _ & [= <-] & Hp);
      [| subst; discriminate].
    eapply probed_valid. exact Hp.
Qed.

Lemma aggregate_truncates_then_sorts_witness :
  let matched_results :=
    [("10.0.0.2", "LAX"); ("9.0.0.1", "SJC"); ("1.1.1.1", "AAA")] in
  (0 < 2)%Z
  /\ Forall valid_entry matched_results
  /\ aggregate matched_results 2
     = ret [("9.0.0.1", "SJC"); ("10.0.0.2", "LAX")].
Proof.
  intros matched_results.
  assert (Hq : (0 < 2)%Z) by lia.
  assert (Hv : Forall valid_entry matched_results)
    by (repeat (constructor; [vm_compute; discriminate |]); constructor).
  split; [exact Hq |]. split; [exact Hv |].
  exact (proj1 (proj2 (proj2
           (aggregate_truncates_then_sorts matched_results 2 Hq Hv)))).
Defined.

Lemma result_set_records_are_well_formed_witness :
  let target_colos := normalise_targets (Some ["lax"]) in
  valid_address "1.1.1.1"
  /\ "LAX" <> EmptyString
  /\ Str.strip "LAX" = "LAX"
  /\ (targets_given target_colos = true -> In "LAX" (targets target_colos))
  /\ (forall d,
        target_colos = normalise_targets d ->
        targets_given target_colos = true ->
        Str.upper "LAX" = "LAX").
Proof.
  intros target_colos.
  eapply (result_set_records_are_well_formed
            (world_answering "colo=LAX") ["1.1.1.1"] target_colos 10).
  - vm_compute. reflexivity.
  - left. reflexivity.
Defined.

Lemma nonpositive_quota_is_fatal_witness :
  let args := {| d := None; i := 0; o := "output.txt" |} in
  (i args <= 0)%Z
  /\ main example_world args
     = Some ([Printed MsgInvalidMax], Raise (SystemExit 1)).
Proof.
  intros args.
  assert (Hq : (i args <= 0)%Z) by (simpl; lia).
  split; [exact Hq |].
  exact (proj1 (nonpositive_quota_is_fatal example_world args Hq)).
Defined.


(** * Further properties of the code *)

(** ** [is_valid_ipv4_range] and [fetch_ip_ranges] *)

Lemma is_valid_ipv4_range_eq (w : World) (ip_range : string) :
  is_valid_ipv4_range w ip_range = ret (is_ipv4_text w ip_range).
Proof.
  unfold is_valid_ipv4_range, ip_network_strict, is_ipv4_text.
  destruct (ip_network w ip_range); reflexivity.
Qed.

Lemma fetch_lines_eq (w : World) (lines : list string) :
  forall ip_ranges,
    fetch_lines w lines ip_ranges
    = (ignored_events w (filter Str.truthy (map Str.strip lines)),
       Ret (ip_ranges
            ++ filter (is_ipv4_text w)
                 (filter Str.truthy (map Str.strip lines)))).
Proof.
  unfold ignored_events.
  induction lines as [| line rest IH]; intros ip_ranges;
    cbn [fetch_lines map filter].
  - rewrite app_nil_r. reflexivity.
  - destruct (Str.truthy (Str.strip line)); [| apply IH].
    rewrite is_valid_ipv4_range_eq, bind_ret. cbn [filter map].
    destruct (is_ipv4_text w (Str.strip line)); cbn [negb].
    + rewrite IH, <- app_assoc. reflexivity.
    + unfold print. rewrite bind_emit, IH. reflexivity.
Qed.

Lemma fetch_ip_ranges_ok
    (w : World) (url : string) (status_code : Z) (text : string) :
  http w url = HttpResponse status_code text ->
  error_status status_code = false ->
  fetch_ip_ranges w url
  = (HttpGet url 10 :: ignored_events w (range_lines text),
     Ret (filter (is_ipv4_text w) (range_lines text))).
Proof.
  intros Hh Hs. unfold fetch_ip_ranges, requests_get.
  rewrite bind_emit, Hh. cbn [trace outcome ret fst snd].
  rewrite bind_Ret. unfold raise_for_status. cbn [fst snd].
  unfold error_status in Hs. rewrite Hs, bind_ret, fetch_lines_eq.
  reflexivity.
Qed.

Lemma fetch_ip_ranges_failed (w : World) (url : string) :
  (forall f,
     http w url = HttpFailure f ->
     fetch_ip_ranges w url
     = ([HttpGet url 10; Printed (MsgFetchFailed (RequestException f))],
        Raise (SystemExit 1)))
  /\ (forall status_code text,
        http w url = HttpResponse status_code text ->
        error_status status_code = true ->
        fetch_ip_ranges w url
        = ([HttpGet url 10;
            Printed (MsgFetchFailed (HTTPError status_code))],
           Raise (SystemExit 1))).
Proof.
  split.
  - intros f Hh. unfold fetch_ip_ranges, requests_get.
    rewrite bind_emit, Hh. reflexivity.
  - intros status_code text Hh Hs. unfold fetch_ip_ranges, requests_get.
    rewrite bind_emit, Hh. cbn [trace outcome ret fst snd].
    rewrite bind_Ret. unfold raise_for_status. cbn [fst snd].
    unfold error_status in Hs. rewrite Hs. reflexivity.
Qed.

Lemma fetch_ip_ranges_returns (w : World) (url : string)
    (t : list event) (ip_ranges : list string) :
  fetch_ip_ranges w url = (t, Ret ip_ranges) ->
  exists status_code text,
    http w url = HttpResponse status_code text
    /\ error_status status_code = false
    /\ t = HttpGet url 10 :: ignored_events w (range_lines text)
    /\ ip_ranges = filter (is_ipv4_text w) (range_lines text).
Proof.
  intros H.
  destruct (http w url) as [f | status_code text] eqn:Hh.
  - rewrite (proj1 (fetch_ip_ranges_failed w url) f Hh) in H.
    discriminate.
  - destruct (error_status status_code) eqn:Hs.
    + rewrite (proj2 (fetch_ip_ranges_failed w url)
                 _ _ Hh Hs) in H.
      discriminate.
    + rewrite (fetch_ip_ranges_ok w url _ _ Hh Hs) in H.
      injection H as <- <-. eauto 6.
Qed.

(** X1. On an answer without error status [fetch_ip_ranges] makes one
    request, with timeout 10, and returns the stripped non-blank lines
    that denote IPv4 networks, in the order of the text; every other
    non-blank line is reported once, in order, and blank lines are passed
    over in silence. *)
Theorem fetch_ip_ranges_keeps_the_valid_lines
    (w : World) (url : string) (status_code : Z) (text : string) :
  http w url = HttpResponse status_code text ->
  error_status status_code = false ->
  fetch_ip_ranges w url
  = (HttpGet url 10 :: ignored_events w (range_lines text),
     Ret (filter (is_ipv4_text w) (range_lines text))).
Proof. apply fetch_ip_ranges_ok. Qed.

(** X2. A request that fails and an answer with an error status are both
    fatal: [fetch_ip_ranges] reports the exception and leaves through
    [sys.exit(1)]; it returns no list. *)
Theorem fetch_ip_ranges_failure_is_fatal (w : World) (url : string) :
  (forall f,
     http w url = HttpFailure f ->
     fetch_ip_ranges w url
     = ([HttpGet url 10; Printed (MsgFetchFailed (RequestException f))],
        Raise (SystemExit 1)))
  /\ (forall status_code text,
        http w url = HttpResponse status_code text ->
        error_status status_code = true ->
        fetch_ip_ranges w url
        = ([HttpGet url 10;
            Printed (MsgFetchFailed (HTTPError status_code))],
           Raise (SystemExit 1))).
Proof. apply fetch_ip_ranges_failed. Qed.

(** ** [expand_ip_range] *)

Lemma range_addresses_length (w : World) (ip_range : string)
    (network_address prefixlen : N) :
  ip_network w ip_range = ipaddress.IPv4Network network_address prefixlen ->
  List.length (range_addresses w ip_range)
  = N.to_nat (2 ^ (32 - prefixlen)).
Proof.
  intros H. unfold range_addresses, ipaddress.addresses,
    ipaddress.num_addresses.
  rewrite H, !length_map, length_seq. reflexivity.
Qed.

Lemma is_ipv4_text_true (w : World) (text : string) :
  is_ipv4_text w text = true ->
  exists network_address prefixlen,
    ip_network w text = ipaddress.IPv4Network network_address prefixlen.
Proof.
  unfold is_ipv4_text. destruct (ip_network w text); try discriminate.
  eauto.
Qed.

Lemma expand_all_silent (w : World) (ip_ranges : list string) :
  Forall (fun r => is_ipv4_text w r = true) ip_ranges ->
  forall all_ips,
    expand_all w ip_ranges all_ips
    = (expanded_events w ip_ranges,
       Ret (all_ips ++ flat_map (range_addresses w) ip_ranges)).
Proof.
  unfold expanded_events.
  induction 1 as [| r rest Hr _ IH]; intros all_ips;
    cbn [expand_all map flat_map].
  - rewrite app_nil_r. reflexivity.
  - apply is_ipv4_text_true in Hr as (a & p & Hr).
    rewrite expand_ip_range_eq, Hr, bind_Ret. cbn [app].
    unfold print. rewrite bind_emit, IH, <- app_assoc. reflexivity.
Qed.

(** X3. The ranges [fetch_ip_ranges] returns are the ones
    [expand_ip_range] accepts: each of them expands without a diagnostic
    to the [2^(32-prefixlen)] addresses of its block, at least one, and
    the expansion of the whole list prints nothing but its counts. *)
Theorem fetched_ranges_expand_silently
    (w : World) (url : string) (t : list event) (ip_ranges : list string) :
  fetch_ip_ranges w url = (t, Ret ip_ranges) ->
  (forall r,
     In r ip_ranges ->
     exists network_address prefixlen,
       ip_network w r = ipaddress.IPv4Network network_address prefixlen
       /\ expand_ip_range w r = ([], Ret (range_addresses w r))
       /\ List.length (range_addresses w r)
          = N.to_nat (2 ^ (32 - prefixlen))
       /\ range_addresses w r <> [])
  /\ expand_all w ip_ranges []
     = (expanded_events w ip_ranges,
        Ret (flat_map (range_addresses w) ip_ranges)).
Proof.
  intros H.
  apply fetch_ip_ranges_returns in H as (status & text & _ & _ & _ & ->).
  split.
  - intros r Hr. apply filter_In in Hr as [_ Hr].
    apply is_ipv4_text_true in Hr as (a & p & Hr).
    exists a, p. split; [exact Hr |].
    split; [rewrite expand_ip_range_eq, Hr; reflexivity |].
    pose proof (range_addresses_length w r a p Hr) as Hlen.
    split; [exact Hlen |].
    intros E. rewrite E in Hlen. simpl in Hlen.
    assert (2 ^ (32 - p) <> 0)%N by (apply N.pow_nonzero; discriminate).
    lia.
  - apply expand_all_silent. apply Forall_forall.
    intros r Hr. apply filter_In in Hr as [_ Hr]. exact Hr.
Qed.

(** ** Addresses as text *)

Lemma split_no_sep (sep : ascii) (s : string) :
  no_sep sep s = true -> Str.split sep s = [s].
Proof.
  unfold no_sep.
  induction s as [| c s IH]; simpl; [reflexivity |].
  destruct (Ascii.eqb c sep); simpl; [discriminate |].
  intros H. rewrite (IH H). reflexivity.
Qed.

Lemma split_app_sep (sep : ascii) (s rest : string) :
  no_sep sep s = true ->
  Str.split sep (s ++ String sep rest) = s :: Str.split sep rest.
Proof.
  unfold no_sep.
  induction s as [| c s IH]; simpl.
  - rewrite Ascii.eqb_refl. reflexivity.
  - destruct (Ascii.eqb c sep); simpl; [discriminate |].
    intros H. rewrite (IH H). reflexivity.
Qed.

Lemma below_256 (P : N -> bool) :
  forallb (fun k => P (N.of_nat k)) (seq 0 256) = true ->
  forall n, (n < 256)%N -> P n = true.
Proof.
  intros H n Hn. rewrite forallb_forall in H.
  rewrite <- (N2Nat.id n). apply H. apply in_seq. lia.
Qed.

Lemma octet_no_dot (n : N) :
  (n < 256)%N -> no_sep "." (Str.of_N n) = true.
Proof.
  apply (below_256 (fun n => no_sep "." (Str.of_N n))).
  vm_compute. reflexivity.
Qed.

Lemma octet_round_trip (n : N) :
  (n < 256)%N -> ipaddress.parse_octet (Str.of_N n) = Some n.
Proof.
  intros Hn.
  assert (H : match ipaddress.parse_octet (Str.of_N n) with
              | Some v => N.eqb v n
              | None => false
              end = true).
  { revert n Hn.
    apply (below_256
             (fun n => match ipaddress.parse_octet (Str.of_N n) with
                       | Some v => N.eqb v n
                       | None => false
                       end)).
    vm_compute. reflexivity. }
  destruct (ipaddress.parse_octet (Str.of_N n)); [| discriminate].
  apply N.eqb_eq in H. subst. reflexivity.
Qed.

Lemma octets_of (v : N) :
  (v < 2 ^ 32)%N ->
  (v / 16777216 < 256 /\ (v / 65536) mod 256 < 256
   /\ (v / 256) mod 256 < 256 /\ v mod 256 < 256
   /\ ((v / 16777216 * 256 + (v / 65536) mod 256) * 256
       + (v / 256) mod 256) * 256 + v mod 256 = v)%N.
Proof.
  intros Hv. change (2 ^ 32)%N with 4294967296%N in Hv.
  repeat split; try (apply N.mod_lt; discriminate).
  - apply N.Div0.div_lt_upper_bound. lia.
  - pose proof (N.div_mod v 256) as H1.
    pose proof (N.div_mod (v / 256) 256) as H2.
    pose proof (N.div_mod (v / 65536) 256) as H3.
    replace (v / 256 / 256)%N with (v / 65536)%N in H2
      by (rewrite N.Div0.div_div; reflexivity).
    replace (v / 65536 / 256)%N with (v / 16777216)%N in H3
      by (rewrite N.Div0.div_div; reflexivity).
    specialize (H1 ltac:(discriminate)).
    specialize (H2 ltac:(discriminate)).
    specialize (H3 ltac:(discriminate)).
    lia.
Qed.

(** Text and number of an address: [IPv4Address(str(ip))] is [ip]. *)
Lemma address_round_trip (v : N) :
  (v < 2 ^ 32)%N ->
  ipaddress.ip_int_from_string (ipaddress.to_string v) = Some v.
Proof.
  intros Hv. destruct (octets_of v Hv) as (Ha & Hb & Hc & Hd & E).
  unfold ipaddress.ip_int_from_string, ipaddress.to_string.
  change "."%string with (String "." EmptyString).
  cbn [String.append].
  rewrite !split_app_sep by (apply octet_no_dot; assumption).
  rewrite split_no_sep by (apply octet_no_dot; assumption).
  rewrite !octet_round_trip by assumption.
  rewrite E. reflexivity.
Qed.

Lemma address_value_to_string (v : N) :
  (v < 2 ^ 32)%N -> address_value (ipaddress.to_string v) = v.
Proof.
  intros Hv. unfold address_value. rewrite (address_round_trip v Hv).
  reflexivity.
Qed.

Lemma block_sorted (network_address : N) (count : nat) :
  (network_address + N.of_nat count <= 2 ^ 32)%N ->
  forall n start,
    start + n <= count ->
    StronglySorted addr_text_lt
      (map ipaddress.to_string
         (map (fun i => (network_address + N.of_nat i)%N) (seq start n))).
Proof.
  intros Hr. induction n as [| n IH]; intros start Hn; cbn [seq map];
    constructor.
  - apply IH. lia.
  - apply Forall_forall. intros s Hs.
    rewrite map_map in Hs. apply in_map_iff in Hs as [k [<- Hk]].
    apply in_seq in Hk. unfold addr_text_lt.
    rewrite !address_value_to_string by lia. lia.
Qed.

Lemma StronglySorted_lt_NoDup (l : list string) :
  StronglySorted addr_text_lt l -> NoDup l.
Proof.
  induction 1 as [| x l _ IH Hx]; constructor; [| exact IH].
  intros Hin. rewrite Forall_forall in Hx. specialize (Hx x Hin).
  unfold addr_text_lt in Hx. lia.
Qed.

(** X4. The addresses of a block that lies in the 32-bit address space
    are listed in strictly ascending numeric order, so none twice; each is
    a valid address whose number lies in the block, and a probe of it
    never prints the invalid-address diagnostic. *)
Theorem expanded_addresses_are_valid
    (w : World) (ip_range : string) (network_address prefixlen : N) :
  ip_network w ip_range = ipaddress.IPv4Network network_address prefixlen ->
  block_in_range network_address prefixlen ->
  StronglySorted addr_text_lt (range_addresses w ip_range)
  /\ NoDup (range_addresses w ip_range)
  /\ forall s,
       In s (range_addresses w ip_range) ->
       valid_address s
       /\ (network_address <= address_value s
           < network_address + 2 ^ (32 - prefixlen))%N
       /\ forall target_colos v,
            ~ In (Printed (MsgInvalidIP s))
                 (trace (check_ip_location w s target_colos v)).
Proof.
  intros Hn Hb. unfold block_in_range in Hb.
  assert (Hs : StronglySorted addr_text_lt (range_addresses w ip_range)).
  { unfold range_addresses, ipaddress.addresses, ipaddress.num_addresses.
    rewrite Hn.
    apply (block_sorted network_address (N.to_nat (2 ^ (32 - prefixlen))));
      lia. }
  split; [exact Hs |]. split; [apply StronglySorted_lt_NoDup; exact Hs |].
  intros s Hin.
  apply range_addresses_In in Hin as (a & p & v & E & Hv & ->).
  rewrite Hn in E. injection E as <- <-.
  assert (Hv32 : (v < 2 ^ 32)%N) by lia.
  assert (Hvalid : valid_address (ipaddress.to_string v)).
  { unfold valid_address. rewrite (address_round_trip v Hv32).
    discriminate. }
  split; [exact Hvalid |].
  split; [rewrite (address_value_to_string v Hv32); exact Hv |].
  intros target_colos sv. rewrite check_ip_location_eq.
  rewrite (address_round_trip v Hv32).
  destruct (at_entry sv); [intros [] |].
  destruct (before_request sv); [intros [] |].
  intros [[=] | []].
Qed.

(** ** More on the probe *)

(** X5. A probe makes at most one request, and then it is its only
    event: a GET of [http://<ip>/cdn-cgi/trace] with timeout 3, sent only
    for a valid address with the flag clear at both readings.  Otherwise
    the probe does nothing, or only prints the diagnostic for an invalid
    address. *)
Theorem probe_makes_at_most_one_request
    (w : World) (ip : string) (target_colos : option (list string))
    (v : stop_view) :
  let t := trace (check_ip_location w ip target_colos v) in
  (t = [HttpGet ("http://" ++ ip ++ "/cdn-cgi/trace")%string 3]
   /\ at_entry v = false /\ before_request v = false /\ valid_address ip)
  \/ (t = [Printed (MsgInvalidIP ip)]
      /\ at_entry v = false /\ ~ valid_address ip)
  \/ (t = []
      /\ (at_entry v = true \/ (before_request v = true /\ valid_address ip))).
Proof.
  cbv zeta. rewrite check_ip_location_eq. unfold valid_address.
  destruct (at_entry v); [right; right; auto |].
  destruct (ipaddress.ip_int_from_string ip) eqn:E.
  - destruct (before_request v).
    + right. right. split; [reflexivity |]. right. split; [auto |].
      discriminate.
    + left. repeat split. discriminate.
  - right. left. repeat split. intros H. apply H. reflexivity.
Qed.

(** X6. The target codes only filter: an address matched with target
    codes given is matched, with the same code, when none are given; and
    an address matched without target codes is matched under any target
    list that holds its code. *)
Theorem targets_only_filter
    (w : World) (ip : string) (target_colos : option (list string))
    (v : stop_view) (r : string * string) :
  (outcome (check_ip_location w ip target_colos v) = Ret (Some r) ->
   outcome (check_ip_location w ip None v) = Ret (Some r))
  /\ (outcome (check_ip_location w ip None v) = Ret (Some r) ->
      In (snd r) (targets target_colos) ->
      outcome (check_ip_location w ip target_colos v) = Ret (Some r)).
Proof.
  split.
  - intros H. apply check_ip_location_some in H
      as (Ha & Hb & Hv & s & text & c & Hh & Hs & Hc & Hne & _ & ->).
    apply check_ip_location_some. repeat split; auto.
    exists s, text, c. repeat split; auto. discriminate.
  - intros H Hin. apply check_ip_location_some in H
      as (Ha & Hb & Hv & s & text & c & Hh & Hs & Hc & Hne & _ & ->).
    apply check_ip_location_some. repeat split; auto.
    exists s, text, c. repeat split; auto.
Qed.

(** ** More on the coordinator *)

Lemma NoDup_map_inj {A B} (h : A -> B) (l : list A) (x y : A) :
  NoDup (map h l) -> In x l -> In y l -> h x = h y -> x = y.
Proof.
  induction l as [| a l IH]; simpl; [intros _ [] |].
  intros Hnd Hx Hy E. inversion Hnd as [| ? ? Hnin Hnd']; subst.
  destruct Hx as [<- | Hx], Hy as [<- | Hy]; auto.
  - exfalso. apply Hnin. rewrite E. apply in_map. exact Hy.
  - exfalso. apply Hnin. rewrite <- E. apply in_map. exact Hx.
Qed.

Lemma future_in_fid (f : Future) (fs : list Future) :
  future_in f fs = true -> exists g, In g fs /\ fid f = fid g.
Proof.
  unfold future_in, same_future. intros H.
  apply existsb_exists in H as [g [Hg E]].
  apply Nat.eqb_eq in E. eauto.
Qed.

Lemma remove_future_perm (f : Future) (fs : list Future) :
  NoDup (map fid fs) -> In f fs ->
  Permutation fs (f :: remove_future f fs).
Proof.
  induction fs as [| g fs IH]; intros Hnd Hin; [destruct Hin |].
  cbn [remove_future]. unfold same_future.
  destruct (Nat.eqb (fid f) (fid g)) eqn:E.
  - apply Nat.eqb_eq in E.
    rewrite (NoDup_map_inj fid (g :: fs) f g Hnd Hin (or_introl eq_refl) E).
    reflexivity.
  - destruct Hin as [-> | Hin]; [rewrite Nat.eqb_refl in E; discriminate |].
    inversion Hnd; subst.
    rewrite perm_swap. constructor. apply IH; assumption.
Qed.

Section Collected.
Variable w : World.
Variable target_colos : option (list string).
Variable max_count : Z.

(** One pass over [done], started below the quota with the flag clear:
    the match list ends at the quota exactly when the pass sets the flag,
    and below it otherwise. *)
Lemma drain_quota (done : list Future) :
  forall st,
    stop_event st = false ->
    (Z.of_nat (List.length (matched_results st)) < max_count)%Z ->
    exists t st',
      drain w target_colos max_count done st = (t, Ret st')
      /\ if stop_event st'
         then Z.of_nat (List.length (matched_results st')) = max_count
              /\ In SetStop t
         else (Z.of_nat (List.length (matched_results st')) < max_count)%Z
              /\ ~ In SetStop t.
Proof.
  induction done as [| future rest IH]; intros st Hstop Hlen; cbn [drain].
  - exists [], st. split; [reflexivity |]. rewrite Hstop. auto.
  - destruct (future_in future (futures st)); [| apply IH; assumption].
    cbn [stop_event]. rewrite Hstop, future_result_clear, bind_ret.
    destruct (observed w target_colos (fip future)) as [r |].
    + unfold print. rewrite bind_emit. cbn [matched_results].
      rewrite length_app. cbn [List.length].
      destruct (max_count <=? _)%Z eqn:E.
      * rewrite !bind_emit, cancel_all_eq, bind_Ret.
        cbn [trace outcome fst snd ret].
        eexists _, _. split; [reflexivity |].
        cbn [stop_event matched_results]. rewrite length_app.
        cbn [List.length]. apply Z.leb_le in E.
        split; [lia |]. right. right. left. reflexivity.
      * apply Z.leb_gt in E.
        edestruct IH as (t & st' & Ed & H); [| | rewrite Ed].
        -- reflexivity.
        -- cbn [matched_results]. rewrite length_app. cbn [List.length].
           exact E.
        -- cbn [trace outcome fst snd].
           eexists _, _. split; [reflexivity |].
           destruct (stop_event st'); destruct H as [H1 H2];
             (split; [exact H1 |]).
           ++ right. exact H2.
           ++ intros [[=] | H]; auto.
    + apply IH; [reflexivity | exact Hlen].
Qed.

Variable pool : list Future.
Hypothesis pool_NoDup : NoDup (map fid pool).

(** One pass over futures of the pool: every match is either collected or
    still pending, none is lost and none is taken twice. *)
Lemma drain_perm (done : list Future) :
  forall st,
    stop_event st = false ->
    incl (futures st) pool ->
    NoDup (map fid (futures st)) ->
    Forall (fun f => In f pool) done ->
    exists t st',
      drain w target_colos max_count done st = (t, Ret st')
      /\ incl (futures st') pool
      /\ NoDup (map fid (futures st'))
      /\ Permutation
           (matched_results st'
            ++ matches_of w target_colos (map fip (futures st')))
           (matched_results st
            ++ matches_of w target_colos (map fip (futures st))).
Proof.
  induction done as [| future rest IH];
    intros st Hstop Hincl Hnd Hdone; cbn [drain].
  - exists [], st. auto.
  - inversion Hdone as [| ? ? Hf Hrest]; subst.
    destruct (future_in future (futures st)) eqn:Hin;
      [| apply IH; assumption].
    assert (Hmem : In future (futures st)).
    { apply future_in_fid in Hin as [g [Hg E]].
      rewrite (NoDup_map_inj fid pool future g pool_NoDup Hf
                 (Hincl _ Hg) E).
      exact Hg. }
    pose proof (remove_future_perm _ _ Hnd Hmem) as Hperm.
    assert (Hincl' : incl (remove_future future (futures st)) pool).
    { intros g Hg. apply Hincl.
      apply (Permutation_in _ (Permutation_sym Hperm)). right. exact Hg. }
    assert (Hnd' : NoDup (map fid (remove_future future (futures st)))).
    { apply (Permutation_map fid) in Hperm.
      apply (Permutation_NoDup Hperm) in Hnd.
      inversion Hnd. assumption. }
    assert (Hm : Permutation
                   (matches_of w target_colos (map fip (futures st)))
                   (matches_of w target_colos
                      (map fip (future :: remove_future future (futures st))))).
    { unfold matches_of. apply Permutation_flat_map.
      apply Permutation_map. exact Hperm. }
    cbn [map matches_of flat_map] in Hm. fold (matches_of w target_colos) in Hm.
    cbn [stop_event]. rewrite Hstop, future_result_clear, bind_ret.
    destruct (observed w target_colos (fip future)) as [r |].
    + unfold print. rewrite bind_emit. cbn [matched_results].
      destruct (max_count <=? _)%Z.
      * rewrite !bind_emit, cancel_all_eq, bind_Ret.
        cbn [trace outcome fst snd ret].
        eexists _, _. split; [reflexivity |].
        cbn [futures matched_results]. repeat split; auto.
        rewrite Hm, <- app_assoc. reflexivity.
      * edestruct IH as (t & st' & Ed & Hi & Hn & Hp);
          [| | | exact Hrest | rewrite Ed];
          [reflexivity | exact Hincl' | exact Hnd' |].
        cbn [futures matched_results] in Hp.
        cbn [trace outcome fst snd].
        eexists _, _. split; [reflexivity |]. repeat split; auto.
        rewrite Hp, Hm, <- app_assoc. reflexivity.
    + edestruct IH as (t & st' & Ed & Hi & Hn & Hp);
        [| | | exact Hrest | rewrite Ed];
        [reflexivity | exact Hincl' | exact Hnd' |].
      cbn [futures matched_results] in Hp.
      eexists _, _. split; [reflexivity |]. repeat split; auto.
      rewrite Hp, Hm. reflexivity.
Qed.
End Collected.

Section LoopInvariants.
Variable w : World.
Variable target_colos : option (list string).
Variable max_count : Z.
Variable total : nat.

(** The loop, entered below the quota with the flag clear: it ends with
    the flag set and the match list at the quota, or with the flag clear,
    the match list below the quota and every future counted. *)
Lemma scan_loop_quota (fuel : nat) :
  forall n st t r,
    stop_event st = false ->
    (Z.of_nat (List.length (matched_results st)) < max_count)%Z ->
    scan_loop w target_colos max_count total fuel n st = Some (t, r) ->
    exists st',
      r = Ret st'
      /\ if stop_event st'
         then Z.of_nat (List.length (matched_results st')) = max_count
              /\ In SetStop t
         else (Z.of_nat (List.length (matched_results st')) < max_count)%Z
              /\ ~ In SetStop t
              /\ total <= completed st'.
Proof.
  induction fuel as [| fuel IH]; intros n st t r Hstop Hlen H;
    cbn [scan_loop] in H;
    destruct (Nat.ltb (completed st) total) eqn:Hc; cbn [andb] in H;
    try (replace (Z.of_nat (List.length (matched_results st)) <? max_count)%Z
           with true in H by (symmetry; apply Z.ltb_lt; exact Hlen));
    try discriminate;
    try (injection H as <- <-; exists st; split; [reflexivity |];
         rewrite Hstop; apply Nat.ltb_ge in Hc; auto).
  destruct (drain_quota w target_colos max_count
              (wait_done w n (futures st)) st Hstop Hlen)
    as (t1 & st1 & E & Hq).
  rewrite E in H. cbn [bind_loop] in H.
  destruct (stop_event st1) eqn:Hs1.
  - injection H as <- <-. exists st1. split; [reflexivity |].
    rewrite Hs1, app_nil_r. exact Hq.
  - destruct Hq as [Hlen1 Hno1].
    destruct (scan_loop w target_colos max_count total fuel (S n) st1)
      as [[t2 r2] |] eqn:E2;
      [| destruct (progress_due (completed st1) total); cbn in H;
         discriminate].
    destruct (IH _ _ _ _ Hs1 Hlen1 E2) as (st' & -> & Hq2).
    exists st'. split.
    + destruct (progress_due (completed st1) total); cbn in H;
        injection H as _ <-; reflexivity.
    + assert (Ht : forall tp,
                 (tp = [] \/ exists m, tp = [Printed m]) ->
                 (In SetStop (t1 ++ tp ++ t2) <-> In SetStop t2)).
      { intros tp Htp. rewrite !in_app_iff. split; [| auto].
        intros [H1 | [H1 | H1]]; auto; [contradiction |].
        destruct Htp as [-> | [m ->]]; [destruct H1 |].
        destruct H1 as [[=] | []]. }
      assert (Hin : In SetStop t <-> In SetStop t2).
      { destruct (progress_due (completed st1) total); cbn in H;
          injection H as <- _;
          [apply (Ht [Printed (MsgProgress (completed st1) total
                                 (List.length (matched_results st1)))])
          | apply (Ht [])];
          eauto. }
      destruct (stop_event st').
      * destruct Hq2 as [Hq2 Hin2]. split; [exact Hq2 |].
        apply Hin. exact Hin2.
      * destruct Hq2 as (Hq2 & Hin2 & Hc2). repeat split; auto.
        intros Hx. apply Hin2, Hin. exact Hx.
Qed.

Variable pool : list Future.
Hypothesis pool_NoDup : NoDup (map fid pool).
Hypothesis w_sound : wait_sound w.

(** Throughout the loop every match is collected or still pending, and
    a future is counted when it leaves the pending list. *)
Lemma scan_loop_perm (fuel : nat) :
  forall n st t r,
    stop_event st = false ->
    incl (futures st) pool ->
    NoDup (map fid (futures st)) ->
    scan_loop w target_colos max_count total fuel n st = Some (t, r) ->
    exists st',
      r = Ret st'
      /\ Permutation
           (matched_results st'
            ++ matches_of w target_colos (map fip (futures st')))
           (matched_results st
            ++ matches_of w target_colos (map fip (futures st)))
      /\ completed st' + List.length (futures st')
         = completed st + List.length (futures st).
Proof.
  induction fuel as [| fuel IH]; intros n st t r Hstop Hincl Hnd H;
    cbn [scan_loop] in H;
    destruct (Nat.ltb (completed st) total && _)%bool;
    try discriminate;
    try (injection H as <- <-; exists st; auto).
  assert (Hdone : Forall (fun f => In f pool) (wait_done w n (futures st))).
  { apply Forall_forall. intros f Hf. apply Hincl. eapply w_sound. eauto. }
  destruct (drain_perm w target_colos max_count pool pool_NoDup
              (wait_done w n (futures st)) st Hstop Hincl Hnd Hdone)
    as (t1 & st1 & E & Hi1 & Hn1 & Hp1).
  destruct (drain_spec w target_colos max_count
              (wait_done w n (futures st)) st Hstop)
    as (t1' & st1' & E' & _ & Hc1 & _).
  rewrite E in E'. injection E' as <- <-.
  rewrite E in H. cbn [bind_loop] in H.
  destruct (stop_event st1) eqn:Hs1.
  - injection H as <- <-. exists st1. auto.
  - destruct (scan_loop w target_colos max_count total fuel (S n) st1)
      as [[t2 r2] |] eqn:E2;
      [| destruct (progress_due (completed st1) total); cbn in H;
         discriminate].
    destruct (IH _ _ _ _ Hs1 Hi1 Hn1 E2) as (st' & -> & Hp2 & Hc2).
    exists st'. split.
    + destruct (progress_due (completed st1) total); cbn in H;
        injection H as _ <-; reflexivity.
    + split; [rewrite Hp2; exact Hp1 | lia].
Qed.
End LoopInvariants.

Lemma futures_of_fip (all_ips : list string) :
  forall next, map fip (futures_of all_ips next) = all_ips.
Proof.
  induction all_ips as [| ip rest IH]; intros next; simpl; [reflexivity |].
  rewrite IH. reflexivity.
Qed.

Lemma futures_of_fid (all_ips : list string) :
  forall next,
    map fid (futures_of all_ips next) = seq next (List.length all_ips).
Proof.
  induction all_ips as [| ip rest IH]; intros next; simpl; [reflexivity |].
  rewrite IH. reflexivity.
Qed.

Lemma scan_run (w : World) (all_ips : list string)
    (target_colos : option (list string)) (max_count : Z)
    (t : list event) (ms : list (string * string)) :
  scan w all_ips target_colos max_count = Some (t, Ret ms) ->
  exists t' st',
    scan_loop w target_colos max_count (List.length all_ips)
      (List.length all_ips) 0 (initial_state (futures_of all_ips 0))
    = Some (t', Ret st')
    /\ t = PoolCreate (max_workers all_ips) :: map Submit all_ips ++ t'
    /\ ms = matched_results st'.
Proof.
  intros H. destruct all_ips as [| ip rest] eqn:E.
  - rewrite scan_nil in H. discriminate.
  - rewrite <- E in *. rewrite scan_eq in H by (subst; discriminate).
    destruct (scan_loop _ _ _ _ _ _ _) as [[t' [st' | e]] |];
      try discriminate.
    injection H as <- <-. eauto.
Qed.

Lemma observed_fst (w : World) (target_colos : option (list string))
    (ip : string) (r : string * string) :
  observed w target_colos ip = Some r -> fst r = ip.
Proof.
  intros H. apply observed_some, check_ip_location_some in H
    as (_ & _ & _ & _ & _ & c & _ & _ & _ & _ & _ & ->).
  reflexivity.
Qed.

Lemma matches_of_In (w : World) (target_colos : option (list string))
    (ips : list string) (r : string * string) :
  In r (matches_of w target_colos ips) <->
  exists ip, In ip ips /\ observed w target_colos ip = Some r.
Proof.
  unfold matches_of. rewrite in_flat_map. split.
  - intros [ip [Hip Hr]]. exists ip. split; [exact Hip |].
    destruct (observed w target_colos ip); [| destruct Hr].
    destruct Hr as [<- | []]. reflexivity.
  - intros [ip [Hip Hr]]. exists ip. split; [exact Hip |].
    rewrite Hr. left. reflexivity.
Qed.

Lemma matches_of_NoDup (w : World) (target_colos : option (list string))
    (ips : list string) :
  NoDup ips -> NoDup (map fst (matches_of w target_colos ips)).
Proof.
  induction 1 as [| ip ips Hnin Hnd IH]; [constructor |].
  change (matches_of w target_colos (ip :: ips))
    with (match observed w target_colos ip with
          | Some r => [r]
          | None => []
          end ++ matches_of w target_colos ips).
  destruct (observed w target_colos ip) as [r |] eqn:E; [| exact IH].
  cbn [app map]. constructor; [| exact IH].
  rewrite (observed_fst _ _ _ _ E).
  intros Hin. apply in_map_iff in Hin as [r' [Hf Hr']].
  apply matches_of_In in Hr' as [ip' [Hip' Ho]].
  apply observed_fst in Ho. congruence.
Qed.

(** X8. For a positive quota the match list of a scan never has more
    than [max_count] entries, so the truncation of lines 169-170 leaves
    it as it is; and the scan sets the stop flag exactly when the list
    has reached [max_count] entries. *)
Theorem scan_stops_at_the_quota
    (w : World) (all_ips : list string)
    (target_colos : option (list string)) (max_count : Z)
    (t : list event) (ms : list (string * string)) :
  (0 < max_count)%Z ->
  scan w all_ips target_colos max_count = Some (t, Ret ms) ->
  (Z.of_nat (List.length ms) <= max_count)%Z
  /\ truncate ms max_count = ms
  /\ (In SetStop t <-> Z.of_nat (List.length ms) = max_count).
Proof.
  intros Hq H. apply scan_run in H as (t' & st' & E & -> & ->).
  apply scan_loop_quota in E as (st & [= <-] & Hs);
    [| reflexivity | exact Hq].
  assert (Hin : In SetStop
                  (PoolCreate (max_workers all_ips)
                     :: map Submit all_ips ++ t')
                <-> In SetStop t').
  { cbn [In]. rewrite in_app_iff, in_map_iff. split; [| auto].
    intros [[=] | [[ip [[=] _]] | Hx]]. exact Hx. }
  assert (Hle : (Z.of_nat (List.length (matched_results st')) <= max_count)%Z)
    by (destruct (stop_event st'); lia).
  split; [exact Hle |]. split.
  - unfold truncate.
    replace (max_count <? _)%Z with false
      by (symmetry; apply Z.ltb_ge; exact Hle).
    reflexivity.
  - rewrite Hin. destruct (stop_event st').
    + tauto.
    + destruct Hs as (Hlt & Hno & _). split; [contradiction | lia].
Qed.

(** X9. When [wait] reports only futures it was given, a scan collects
    every match at most once and loses none: its match list together
    with the matches it did not wait for is a rearrangement of the
    matches among the candidates, and nothing was left out if the list
    stayed below the quota.  Every entry is what the probe of a candidate
    returned, and with distinct candidates no address is listed twice. *)
Theorem scan_collects_each_match_once
    (w : World) (all_ips : list string)
    (target_colos : option (list string)) (max_count : Z)
    (t : list event) (ms : list (string * string)) :
  wait_sound w ->
  scan w all_ips target_colos max_count = Some (t, Ret ms) ->
  (exists missed,
     Permutation (ms ++ missed) (matches_of w target_colos all_ips)
     /\ ((Z.of_nat (List.length ms) < max_count)%Z -> missed = []))
  /\ (forall r,
        In r ms ->
        In (fst r) all_ips /\ observed w target_colos (fst r) = Some r)
  /\ (NoDup all_ips -> NoDup (map fst ms)).
Proof.
  intros Hw H. apply scan_run in H as (t' & st' & E & -> & ->).
  assert (Hids : NoDup (map fid (futures_of all_ips 0)))
    by (rewrite futures_of_fid; apply seq_NoDup).
  destruct (scan_loop_perm w target_colos max_count (List.length all_ips)
              (futures_of all_ips 0) Hids Hw (List.length all_ips) 0
              (initial_state (futures_of all_ips 0)) t' (Ret st')
              eq_refl (incl_refl _) Hids E)
    as (st & [= <-] & Hp & Hc).
  cbn [initial_state matched_results futures completed app] in Hp, Hc.
  rewrite futures_of_fip in Hp. rewrite futures_of_length in Hc.
  assert (Hall : forall r,
             In r (matched_results st') ->
             In r (matches_of w target_colos all_ips)).
  { intros r Hr. apply (Permutation_in _ Hp), in_or_app. auto. }
  split; [| split].
  - exists (matches_of w target_colos (map fip (futures st'))).
    split; [exact Hp |]. intros Hlt.
    assert (Hq : (0 < max_count)%Z) by lia.
    apply scan_loop_quota in E as (st & [= <-] & Hs);
      [| reflexivity | exact Hq].
    destruct (stop_event st'); [destruct Hs as [Hs _]; lia |].
    destruct Hs as (_ & _ & Hdone).
    destruct (futures st'); [reflexivity | simpl in Hc; lia].
  - intros r Hr. apply Hall, matches_of_In in Hr as [ip [Hip Ho]].
    rewrite (observed_fst _ _ _ _ Ho). auto.
  - intros Hnd. apply (matches_of_NoDup w target_colos) in Hnd.
    apply (Permutation_map fst) in Hp.
    apply (Permutation_NoDup (Permutation_sym Hp)) in Hnd.
    rewrite map_app in Hnd. apply NoDup_app_remove_r in Hnd. exact Hnd.
Qed.

(** ** More on the report *)

Lemma report_lines_eq (l : list (string * string)) :
  report_lines l
  = flat_map (fun colo => group_lines colo (ips_of colo l))
             (sort_by String.leb (map fst (group_all l))).
Proof.
  unfold report_lines. apply flat_map_ext.
  intros c. rewrite groups_get_all. reflexivity.
Qed.

Lemma report_codes (l : list (string * string)) :
  NoDup (sort_by String.leb (map fst (group_all l)))
  /\ forall c,
       In c (sort_by String.leb (map fst (group_all l)))
       <-> In c (map snd l).
Proof.
  destruct (keys_fold l [] (NoDup_nil _)) as [Hnd Hin].
  fold (group_all l) in Hnd, Hin.
  pose proof (sort_by_perm String.leb (map fst (group_all l))) as Hperm.
  split.
  - eapply Permutation_NoDup; [symmetry; exact Hperm | exact Hnd].
  - intros c. split.
    + intros H. apply (Permutation_in _ Hperm) in H.
      apply Hin in H as [[] | H]. exact H.
    + intros H. apply (Permutation_in _ (Permutation_sym Hperm)).
      apply Hin. right. exact H.
Qed.

Lemma group_lines_length (colo : string) (ips : list string) :
  List.length (group_lines colo ips) = List.length ips.
Proof.
  unfold group_lines. rewrite length_map.
  generalize 1. induction ips as [| ip ips IH]; intros n; simpl; auto.
Qed.

Lemma filter_codes_length (l : list (string * string)) (c : string)
    (cs : list string) :
  ~ In c cs ->
  List.length (filter (fun x => String.eqb (snd x) c) l)
  + List.length (filter (fun x => existsb (String.eqb (snd x)) cs) l)
  = List.length
      (filter (fun x => existsb (String.eqb (snd x)) (c :: cs)) l).
Proof.
  intros Hnin. induction l as [| x l IH]; [reflexivity |].
  cbn [filter existsb] in *.
  destruct (String.eqb (snd x) c) eqn:E; cbn [orb].
  - replace (existsb (String.eqb (snd x)) cs) with false.
    + cbn [List.length]. lia.
    + symmetry. apply not_true_is_false. intros H.
      apply existsb_exists in H as [y [Hy Ey]].
      apply String.eqb_eq in E, Ey. congruence.
  - destruct (existsb (String.eqb (snd x)) cs); cbn [List.length]; lia.
Qed.

Lemma grouped_lines_length (l : list (string * string))
    (codes : list string) :
  NoDup codes ->
  List.length
    (flat_map (fun colo => group_lines colo (ips_of colo l)) codes)
  = List.length
      (filter (fun x => existsb (String.eqb (snd x)) codes) l).
Proof.
  induction 1 as [| c cs Hnin _ IH]; cbn [flat_map].
  - induction l; simpl; auto.
  - rewrite length_app, IH, group_lines_length.
    unfold ips_of. rewrite length_map.
    apply filter_codes_length. exact Hnin.
Qed.

(** X10. The report has exactly one line per entry of the list, none
    lost and none written twice: its lines are the lines
    [<address>#<code> <n+1>] of the [n]-th address (from 0) among the
    entries of each code. *)
Theorem report_has_one_line_per_entry (l : list (string * string)) :
  List.length (report_lines l) = List.length l
  /\ forall line,
       In line (report_lines l) <->
       exists colo ip n,
         nth_error (ips_of colo l) n = Some ip
         /\ line = (ip ++ "#" ++ colo ++ " " ++ Str.of_nat (n + 1)
                    ++ newline)%string.
Proof.
  destruct (report_codes l) as [Hnd Hin].
  rewrite report_lines_eq. split.
  - rewrite (grouped_lines_length l _ Hnd).
    f_equal. apply forallb_filter_id. apply forallb_forall.
    intros x Hx. apply existsb_exists. exists (snd x).
    split; [| apply String.eqb_refl].
    apply Hin. apply in_map. exact Hx.
  - intros line. rewrite in_flat_map. split.
    + intros [c [_ Hl]]. apply In_nth_error in Hl as [n Hn].
      rewrite group_lines_nth in Hn.
      destruct (nth_error (ips_of c l) n) as [ip |] eqn:E;
        [| discriminate].
      injection Hn as <-. exists c, ip, n. auto.
    + intros (c & ip & n & Hn & ->). exists c. split.
      * apply Hin. apply nth_error_In in Hn. unfold ips_of in Hn.
        apply in_map_iff in Hn as [x [_ Hx]].
        apply filter_In in Hx as [Hx Ex]. apply String.eqb_eq in Ex.
        subst c. apply in_map. exact Hx.
      * eapply nth_error_In. rewrite group_lines_nth, Hn. reflexivity.
Qed.

(** ** More on whole runs *)

Lemma Forall_prep_ignored (w : World) (lines : list string) :
  Forall prep_event (ignored_events w lines).
Proof.
  unfold ignored_events. apply Forall_forall. intros ev H.
  apply in_map_iff in H as [line [<- _]]. exact I.
Qed.

(** [fetch_ip_ranges] ends with a list or with [SystemExit(1)], and only
    prints and requests on the way. *)
Lemma fetch_ip_ranges_cases (w : World) (url : string) :
  exists t r,
    fetch_ip_ranges w url = (t, r)
    /\ Forall prep_event t
    /\ ((exists ip_ranges, r = Ret ip_ranges) \/ r = Raise (SystemExit 1)).
Proof.
  destruct (http w url) as [f | status_code text] eqn:Hh.
  - rewrite (proj1 (fetch_ip_ranges_failed w url) f Hh).
    eexists _, _. split; [reflexivity |].
    split; [repeat constructor | auto].
  - destruct (error_status status_code) eqn:Hs.
    + rewrite (proj2 (fetch_ip_ranges_failed w url) _ _ Hh Hs).
      eexists _, _. split; [reflexivity |].
      split; [repeat constructor | auto].
    + rewrite (fetch_ip_ranges_ok w url _ _ Hh Hs).
      eexists _, _. split; [reflexivity |]. split; [| eauto].
      constructor; [exact I | apply Forall_prep_ignored].
Qed.

Lemma expand_all_prep (w : World) (ip_ranges : list string) :
  forall all_ips,
    Forall prep_event (trace (expand_all w ip_ranges all_ips)).
Proof.
  induction ip_ranges as [| r rest IH]; intros all_ips; cbn [expand_all].
  - constructor.
  - rewrite expand_ip_range_eq.
    destruct (expand_all_value w rest (all_ips ++ range_addresses w r))
      as [t' E].
    specialize (IH (all_ips ++ range_addresses w r)). rewrite E in IH.
    unfold range_addresses in *.
    destruct (ip_network w r); rewrite bind_Ret; unfold print;
      rewrite bind_emit; cbn [trace outcome fst snd app];
      rewrite ?app_nil_r in *; rewrite E;
      repeat (constructor; [exact I |]); exact IH.
Qed.

(** The preparation in closed form. *)
Lemma candidates_cases (w : World) :
  exists t r,
    candidates w = (t, r)
    /\ Forall prep_event t
    /\ ((exists tf ip_ranges,
           fetch_ip_ranges w ip_ranges_url = (tf, Ret ip_ranges)
           /\ r = Ret (list_of_set w
                         (flat_map (range_addresses w) ip_ranges)))
        \/ r = Raise (SystemExit 1)).
Proof.
  unfold candidates, print. rewrite bind_emit.
  destruct (fetch_ip_ranges_cases w ip_ranges_url)
    as (tf & rf & E & Hp & [[ip_ranges ->] | ->]); rewrite E.
  - rewrite bind_Ret, !bind_emit.
    destruct (expand_all_value w ip_ranges []) as [te Ee].
    pose proof (expand_all_prep w ip_ranges []) as Hpe.
    rewrite Ee in *. rewrite bind_Ret.
    cbn [trace outcome fst snd ret app] in *.
    eexists _, _. split; [reflexivity |]. split.
    + constructor; [exact I |]. apply Forall_app. split; [exact Hp |].
      repeat (constructor; [exact I |]). rewrite app_nil_r. exact Hpe.
    + left. eauto.
  - eexists _, _. split; [reflexivity |]. split; [| auto].
    constructor; [exact I | exact Hp].
Qed.

Lemma written_app (t1 t2 : list event) :
  written (t1 ++ t2) = written t1 ++ written t2.
Proof. apply flat_map_app. Qed.


Lemma submitted_prep (t : list event) :
  Forall prep_event t -> submitted t = [].
Proof.
  induction 1 as [| ev t Hev _ IH]; [reflexivity |].
  destruct ev; try contradiction; exact IH.
Qed.

Lemma written_loop (t : list event) : Forall loop_event t -> written t = [].
Proof.
  induction 1 as [| ev t Hev _ IH]; [reflexivity |].
  destruct ev; try contradiction; exact IH.
Qed.

Lemma written_Submit (ips : list string) : written (map Submit ips) = [].
Proof. induction ips; simpl; auto. Qed.


(** [main] after a positive quota and a preparation that returned. *)
Lemma main_after_candidates (w : World) (args : Args)
    (tc : list event) (all_ips : list string) :
  (0 < i args)%Z ->
  candidates w = (tc, Ret all_ips) ->
  main w args =
  match result_set w all_ips (normalise_targets (d args)) (i args) with
  | None => None
  | Some (t1, r1) =>
      Some
        (tc ++ [Printed (MsgUnique (List.length all_ips));
                Printed (MsgStopAfter (i args))] ++ t1
         ++ match r1 with
            | Ret rs =>
                if can_open w (o args) then
                  [WriteFile (o args) (String.concat "" (report_lines rs));
                   Printed (MsgDone (List.length rs) (o args))]
                else []
            | Raise _ => []
            end,
         match r1 with
         | Ret _ => if can_open w (o args) then Ret tt else Raise OSError
         | Raise e => Raise e
         end)
  end.
Proof.
  intros Hq Hc. unfold main.
  rewrite (checked_max_count_positive _ Hq), Hc.
  cbn [bind_loop ret print emit app].
  destruct (result_set w all_ips (normalise_targets (d args)) (i args))
    as [[t1 [rs | e]] |]; cbn [bind_loop app];
    rewrite ?app_nil_r; try reflexivity.
  unfold open_for_writing.
  destruct (can_open w (o args));
    cbn [bind_loop ret raise write_report print emit app];
    rewrite ?app_nil_r; reflexivity.
Qed.

Lemma result_set_cases (w : World) (all_ips : list string)
    (target_colos : option (list string)) (max_count : Z)
    (t : list event) (r : res (list (string * string))) :
  result_set w all_ips target_colos max_count = Some (t, r) ->
  written t = [] /\ submitted t = all_ips
  /\ ((all_ips = [] /\ r = Raise ValueError)
      \/ (all_ips <> [] /\ exists rs, r = Ret rs)).
Proof.
  intros H. destruct all_ips as [| ip rest] eqn:E.
  - unfold result_set in H. rewrite scan_nil in H.
    injection H as <- <-. auto.
  - rewrite <- E in *.
    assert (Hne : all_ips <> []) by (subst; discriminate).
    apply result_set_spec in H as (ms & Hs & _ & ->); [| exact Hne].
    pose proof (scan_submitted _ _ _ _ _ _ Hs) as Hsub.
    apply scan_spec in Hs as (t' & ms' & -> & Ht & _); [| exact Hne].
    split; [| split; [exact Hsub | right; eauto]].
    change (PoolCreate (max_workers all_ips) :: map Submit all_ips ++ t')
      with ([PoolCreate (max_workers all_ips)] ++ map Submit all_ips ++ t').
    rewrite !written_app, written_Submit, (written_loop _ Ht). reflexivity.
Qed.


Lemma candidates_of_fetch (w : World) (tf : list event)
    (ip_ranges : list string) :
  fetch_ip_ranges w ip_ranges_url = (tf, Ret ip_ranges) ->
  exists t,
    candidates w
    = (t, Ret (list_of_set w (flat_map (range_addresses w) ip_ranges)))
    /\ Forall prep_event t.
Proof.
  intros H.
  destruct (candidates_cases w)
    as (t & r & E & Hp & [(tf' & rs' & H' & ->) | ->]).
  - rewrite H in H'. injection H' as <- <-. eauto.
  - exfalso. unfold candidates, print in E.
    rewrite bind_emit, H, bind_Ret, !bind_emit in E.
    destruct (expand_all_value w ip_ranges []) as [te Ee].
    rewrite Ee, bind_Ret in E. discriminate.
Qed.

(** X12. With a positive quota, a range list that cannot be fetched ends
    the run at once: [main] reports the failure and leaves through
    [sys.exit(1)] with no pool created, no probe submitted and no file
    written, whether the request failed or was answered with an error
    status. *)
Theorem main_stops_when_the_ranges_cannot_be_fetched
    (w : World) (args : Args) :
  (0 < i args)%Z ->
  (forall f,
     http w ip_ranges_url = HttpFailure f ->
     main w args
     = Some ([Printed (MsgFetching ip_ranges_url);
              HttpGet ip_ranges_url 10;
              Printed (MsgFetchFailed (RequestException f))],
             Raise (SystemExit 1)))
  /\ (forall status_code text,
        http w ip_ranges_url = HttpResponse status_code text ->
        error_status status_code = true ->
        main w args
        = Some ([Printed (MsgFetching ip_ranges_url);
                 HttpGet ip_ranges_url 10;
                 Printed (MsgFetchFailed (HTTPError status_code))],
                Raise (SystemExit 1))).
Proof.
  intros Hq. split.
  - intros f Hh. unfold main, candidates, print.
    rewrite (checked_max_count_positive _ Hq), bind_emit.
    rewrite (proj1 (fetch_ip_ranges_failed w ip_ranges_url) f Hh).
    reflexivity.
  - intros status_code text Hh Hs. unfold main, candidates, print.
    rewrite (checked_max_count_positive _ Hq), bind_emit.
    rewrite (proj2 (fetch_ip_ranges_failed w ip_ranges_url) _ _ Hh Hs).
    reflexivity.
Qed.



Lemma normalise_targets_upper (d : option (list string)) :
  normalise_targets (option_map (map Str.upper) d) = normalise_targets d.
Proof.
  destruct d as [[| x xs] |]; cbn [option_map map normalise_targets];
    try reflexivity.
  rewrite upper_idempotent. f_equal. f_equal.
  rewrite map_map. apply map_ext. intros a. apply upper_idempotent.
Qed.

(** X14. The target codes are taken without regard to case: giving them
    in upper case changes nothing in the run, events included; and an
    empty list of codes is the same as none. *)
Theorem target_codes_are_case_insensitive (w : World) (args : Args) :
  main w (with_upper_targets args) = main w args
  /\ normalise_targets (Some []) = normalise_targets None.
Proof.
  split; [| reflexivity].
  unfold main, with_upper_targets, checked_max_count. cbn [d i o].
  rewrite normalise_targets_upper. reflexivity.
Qed.


(** ** More on the sort *)

Lemma mapM_invalid (l : list (string * string)) :
  Exists (fun x => ~ valid_entry x) l ->
  mapM (fun x => ipaddress.IPv4Address (fst x)) l = raise ValueError.
Proof.
  induction l as [| x l IH]; intros H; [inversion H |].
  cbn [mapM]. unfold ipaddress.IPv4Address at 1.
  destruct (ipaddress.ip_int_from_string (fst x)) eqn:E.
  - rewrite bind_ret, IH; [reflexivity |].
    inversion H as [? ? Hx | ? ? Hl]; subst; [| exact Hl].
    exfalso. apply Hx. unfold valid_entry, valid_address. rewrite E.
    discriminate.
  - reflexivity.
Qed.

Lemma valid_entry_dec (x : string * string) :
  {valid_entry x} + {~ valid_entry x}.
Proof.
  unfold valid_entry, valid_address.
  destruct (ipaddress.ip_int_from_string (fst x)).
  - left. discriminate.
  - right. intros H. apply H. reflexivity.
Qed.

(** X11. The sort of lines 169-173 raises [ValueError], and does nothing
    else, exactly when the address of a kept entry is not valid; the
    match lists of scans hold valid addresses only, so for them it never
    raises. *)
Theorem aggregate_raises_on_an_invalid_address
    (matched_results : list (string * string)) (max_count : Z) :
  (aggregate matched_results max_count = ([], Raise ValueError) <->
   Exists (fun x => ~ valid_entry x) (truncate matched_results max_count))
  /\ (forall w all_ips target_colos t,
        scan w all_ips target_colos max_count
        = Some (t, Ret matched_results) ->
        exists rs, aggregate matched_results max_count = ([], Ret rs)).
Proof.
  split; [split |].
  - intros H.
    destruct (Forall_Exists_dec valid_entry valid_entry_dec
                (truncate matched_results max_count)) as [Hv | He];
      [| exact He].
    unfold aggregate in H. rewrite (sort_by_address_eq _ Hv) in H.
    discriminate.
  - intros H. unfold aggregate, sort_by_address.
    rewrite (mapM_invalid _ H). reflexivity.
  - intros w all_ips target_colos t H.
    apply scan_results_are_valid in H.
    rewrite (aggregate_eq _ _ H). eexists. reflexivity.
Qed.

(** ** More on the code of a line *)

Lemma split_fields_no_sep (sep : ascii) (s : string) :
  Forall (fun f => no_sep sep f = true) (Str.split sep s).
Proof.
  unfold no_sep.
  induction s as [| c s IH]; cbn [Str.split].
  - repeat constructor.
  - destruct (Ascii.eqb c sep) eqn:E.
    + constructor; [reflexivity | exact IH].
    + destruct (Str.split sep s) as [| h t].
      * constructor; [| constructor]. simpl. rewrite E. reflexivity.
      * inversion IH as [| ? ? Hh Ht]; subst.
        constructor; [| exact Ht]. simpl. rewrite E, Hh. reflexivity.
Qed.

Lemma lstrip_forallb (p : ascii -> bool) (s : string) :
  Str.forallb p s = true -> Str.forallb p (Str.lstrip s) = true.
Proof.
  induction s as [| c s IH]; simpl; [auto |].
  intros H. apply andb_true_iff in H as [Hc Hs].
  destruct (Str.isspace c); [auto |]. simpl. rewrite Hc, Hs. reflexivity.
Qed.

Lemma rstrip_forallb (p : ascii -> bool) (s : string) :
  Str.forallb p s = true -> Str.forallb p (Str.rstrip s) = true.
Proof.
  induction s as [| c s IH]; [auto |].
  rewrite rstrip_cons. cbn [Str.forallb].
  intros H. apply andb_true_iff in H as [Hc Hs]. specialize (IH Hs).
  destruct (Str.rstrip s) as [| c' r].
  - destruct (Str.isspace c); simpl; [reflexivity |].
    rewrite Hc. reflexivity.
  - cbn [Str.forallb] in *. rewrite Hc, IH. reflexivity.
Qed.

Lemma colo_field_no_sep (line : string) :
  no_sep "=" (colo_field line) = true.
Proof.
  unfold colo_field, Str.strip, no_sep.
  apply rstrip_forallb, lstrip_forallb.
  pose proof (split_fields_no_sep "=" line) as H.
  destruct (Str.split "=" line) as [| a [| b rest]]; try reflexivity.
  inversion H as [| ? ? _ H']; subst. inversion H'; subst. assumption.
Qed.

(** X7. The code is read from the first line that starts with [colo=],
    whatever follows it: it is the text between the first and the second
    [=] of that line, stripped, so it never contains [=] and has no white
    space around it. *)
Theorem code_comes_from_the_first_colo_line
    (before after : list string) (line : string) :
  Forall (fun l => Str.startswith l "colo=" = false) before ->
  Str.startswith line "colo=" = true ->
  find_colo (before ++ line :: after) = ret (Some (colo_field line))
  /\ no_sep "=" (colo_field line) = true
  /\ Str.strip (colo_field line) = colo_field line.
Proof.
  intros Hb Hl. split; [| split].
  - rewrite find_colo_pure. unfold first_colo. f_equal. f_equal.
    induction Hb as [| l before Hlb _ IH]; simpl.
    + rewrite Hl. reflexivity.
    + rewrite Hlb. exact IH.
  - apply colo_field_no_sep.
  - unfold colo_field. apply strip_idempotent.
Qed.

(** ** Further instances *)

Lemma sound_when_all_done (w : World) :
  (forall n pending, wait_done w n pending = pending) -> wait_sound w.
Proof. intros Hw n pending f. rewrite Hw. auto. Qed.

Lemma fetch_ip_ranges_keeps_the_valid_lines_witness :
  let text := ("10.0.0.0/30" ++ newline ++ "9.0.0.0/31" ++ newline
               ++ "10.0.0.0/31")%string in
  http example_world ip_ranges_url = HttpResponse 200 text
  /\ error_status 200 = false
  /\ fetch_ip_ranges example_world ip_ranges_url
     = (HttpGet ip_ranges_url 10
          :: ignored_events example_world (range_lines text),
        Ret (filter (is_ipv4_text example_world) (range_lines text))).
Proof.
  intros text.
  assert (Hh : http example_world ip_ranges_url = HttpResponse 200 text)
    by reflexivity.
  assert (Hs : error_status 200 = false) by reflexivity.
  split; [exact Hh |]. split; [exact Hs |].
  exact (fetch_ip_ranges_keeps_the_valid_lines
           example_world ip_ranges_url 200 text Hh Hs).
Defined.

Lemma fetched_ranges_expand_silently_witness :
  let ip_ranges := ["10.0.0.0/30"; "9.0.0.0/31"; "10.0.0.0/31"] in
  (exists t, fetch_ip_ranges example_world ip_ranges_url
             = (t, Ret ip_ranges))
  /\ expand_all example_world ip_ranges []
     = (expanded_events example_world ip_ranges,
        Ret (flat_map (range_addresses example_world) ip_ranges)).
Proof.
  intros ip_ranges.
  assert (Hf : fetch_ip_ranges example_world ip_ranges_url
               = ([HttpGet ip_ranges_url 10], Ret ip_ranges))
    by (vm_compute; reflexivity).
  split; [eexists; exact Hf |].
  exact (proj2 (fetched_ranges_expand_silently
                  example_world ip_ranges_url _ ip_ranges Hf)).
Defined.

Lemma expanded_addresses_are_valid_witness :
  ip_network example_world "10.0.0.0/30"
  = ipaddress.IPv4Network 167772160 30
  /\ block_in_range 167772160 30
  /\ NoDup (range_addresses example_world "10.0.0.0/30").
Proof.
  assert (Hn : ip_network example_world "10.0.0.0/30"
               = ipaddress.IPv4Network 167772160 30)
    by (vm_compute; reflexivity).
  assert (Hb : block_in_range 167772160 30)
    by (unfold block_in_range; vm_compute; discriminate).
  split; [exact Hn |]. split; [exact Hb |].
  exact (proj1 (proj2 (expanded_addresses_are_valid
                         example_world "10.0.0.0/30" 167772160 30 Hn Hb))).
Defined.

Lemma code_comes_from_the_first_colo_line_witness :
  Forall (fun l => Str.startswith l "colo=" = false) ["h=1"]
  /\ Str.startswith "colo= LAX =x" "colo=" = true
  /\ find_colo (["h=1"] ++ "colo= LAX =x" :: ["colo=SJC"])
     = ret (Some "LAX").
Proof.
  assert (Hb : Forall (fun l => Str.startswith l "colo=" = false) ["h=1"])
    by (repeat constructor).
  assert (Hl : Str.startswith "colo= LAX =x" "colo=" = true)
    by reflexivity.
  split; [exact Hb |]. split; [exact Hl |].
  exact (proj1 (code_comes_from_the_first_colo_line
                  ["h=1"] ["colo=SJC"] "colo= LAX =x" Hb Hl)).
Defined.

Lemma scan_stops_at_the_quota_witness :
  (0 < 2)%Z
  /\ exists t ms,
       scan example_world ["10.0.0.2"; "10.0.0.3"; "9.0.0.0"; "10.0.0.1"]
         None 2
       = Some (t, Ret ms)
       /\ (Z.of_nat (List.length ms) <= 2)%Z
       /\ truncate ms 2 = ms
       /\ (In SetStop t <-> Z.of_nat (List.length ms) = 2%Z).
Proof.
  assert (Hq : (0 < 2)%Z) by lia.
  split; [exact Hq |].
  assert (E : exists t ms,
             scan example_world
               ["10.0.0.2"; "10.0.0.3"; "9.0.0.0"; "10.0.0.1"] None 2
             = Some (t, Ret ms))
    by (eexists _, _; vm_compute; reflexivity).
  destruct E as (t & ms & E). exists t, ms. split; [exact E |].
  exact (scan_stops_at_the_quota _ _ _ _ _ _ Hq E).
Defined.

Lemma scan_collects_each_match_once_witness :
  wait_sound example_world
  /\ exists t ms,
       scan example_world ["10.0.0.2"; "9.0.0.1"; "10.0.0.1"] None 5
       = Some (t, Ret ms)
       /\ (forall r,
             In r ms ->
             In (fst r) ["10.0.0.2"; "9.0.0.1"; "10.0.0.1"]
             /\ observed example_world None (fst r) = Some r).
Proof.
  assert (Hw : wait_sound example_world)
    by (apply sound_when_all_done; reflexivity).
  split; [exact Hw |].
  assert (E : exists t ms,
             scan example_world ["10.0.0.2"; "9.0.0.1"; "10.0.0.1"] None 5
             = Some (t, Ret ms))
    by (eexists _, _; vm_compute; reflexivity).
  destruct E as (t & ms & E). exists t, ms. split; [exact E |].
  exact (proj1 (proj2 (scan_collects_each_match_once _ _ _ _ _ _ Hw E))).
Defined.

Lemma main_stops_when_the_ranges_cannot_be_fetched_witness :
  (0 < i example_args)%Z
  /\ main world_unreachable example_args
     = Some ([Printed (MsgFetching ip_ranges_url);
              HttpGet ip_ranges_url 10;
              Printed (MsgFetchFailed (RequestException ConnectionRefused))],
             Raise (SystemExit 1)).
Proof.
  assert (Hq : (0 < i example_args)%Z) by (simpl; lia).
  split; [exact Hq |].
  exact (proj1 (main_stops_when_the_ranges_cannot_be_fetched
                  world_unreachable example_args Hq)
           ConnectionRefused eq_refl).
Defined.



(** ** The claims about the pool and the candidates *)

Lemma result_set_terminates (w : World) (all_ips : list string)
    (target_colos : option (list string)) (max_count : Z) :
  productive w ->
  exists t r, result_set w all_ips target_colos max_count = Some (t, r).
Proof.
  intros Hw. unfold result_set.
  assert (Hs : exists found,
             scan w all_ips target_colos max_count = Some found).
  { destruct all_ips as [| ip rest].
    - rewrite scan_nil. eauto.
    - destruct (scan_terminates w (ip :: rest) target_colos max_count Hw)
        as (t & ms & E & _); [discriminate | eauto]. }
  destruct Hs as [found ->].
  destruct (matched_results <- found ;; aggregate matched_results max_count)
    as [t' r'].
  eauto.
Qed.

(** With every [wait] finding a pending future done, [main] ends after a
    preparation that returned, and it has submitted the candidates, each
    once. *)
Lemma main_submits_the_candidates (w : World) (args : Args)
    (tc : list event) (all_ips : list string) :
  productive w ->
  (0 < i args)%Z ->
  candidates w = (tc, Ret all_ips) ->
  exists t r, main w args = Some (t, r) /\ submitted t = all_ips.
Proof.
  intros Hw Hq Hc.
  assert (Hp : Forall prep_event tc).
  { destruct (candidates_cases w) as (tc' & rc & Ec & Hp & _).
    rewrite Hc in Ec. injection Ec as <- _. exact Hp. }
  rewrite (main_after_candidates w args tc all_ips Hq Hc).
  destruct (result_set_terminates w all_ips (normalise_targets (d args))
              (i args) Hw) as (t1 & r1 & E1).
  rewrite E1. eexists _, _. split; [reflexivity |].
  apply result_set_cases in E1 as (_ & Hs1 & _).
  pose proof (submitted_prep _ Hp) as Hsp.
  unfold submitted in *.
  rewrite !flat_map_app, Hsp, Hs1. cbn [flat_map app].
  destruct r1 as [rs | e]; [destruct (can_open w (o args)) |];
    cbn [flat_map app]; rewrite ?app_nil_r; reflexivity.
Qed.

Lemma filter_length_le {A : Type} (f : A -> bool) (l : list A) :
  List.length (filter f l) <= List.length l.
Proof.
  induction l as [| a l IH]; simpl; [lia |].
  destruct (f a); simpl; lia.
Qed.

Lemma pool_step_bounded (n : Z) (p : option pool_state) (s : step) :
  (0 <= n)%Z ->
  (forall m, s = Coordinator (PoolCreate m) -> m = n) ->
  pool_bounded n p ->
  pool_bounded n (pool_step p s).
Proof.
  intros Hn Hs Hp.
  destruct s as [ev | a].
  - destruct ev; try exact Hp.
    + rewrite (Hs _ eq_refl). simpl. repeat split; simpl; lia.
    + destruct p as [q |]; [| exact I]. destruct Hp as (Hz & Hr & Ht).
      simpl. split; [exact Hz |].
      destruct (Z.ltb_spec (Z.of_nat (threads q)) (pool_size q)); lia.
    + destruct p as [q |]; [| exact I]. exact Hp.
  - destruct a as [| f]; (destruct p as [q |]; [| exact I]);
      destruct Hp as (Hz & Hr & Ht).
    + simpl. unfold pool_take.
      destruct (queued q) as [| u rest]; [simpl; auto |].
      destruct (Nat.ltb_spec (List.length (running q)) (threads q));
        simpl; repeat split; auto; lia.
    + simpl. split; [exact Hz |]. split; [| exact Ht].
      pose proof (filter_length_le (other_than f) (running q)). lia.
Qed.

Lemma pool_states_bounded (n : Z) (sched : list step) :
  (0 <= n)%Z ->
  (forall m, In (PoolCreate m) (coordinator_events sched) -> m = n) ->
  forall p,
    pool_bounded n p ->
    Forall (pool_bounded n) (pool_states p sched).
Proof.
  intros Hn. induction sched as [| s rest IH]; intros Hs p Hp.
  - constructor; [exact Hp | constructor].
  - simpl. constructor; [exact Hp |].
    apply IH.
    + intros m Hm. apply Hs. unfold coordinator_events. simpl.
      apply in_or_app. right. exact Hm.
    + apply pool_step_bounded; [exact Hn | | exact Hp].
      intros m ->. apply Hs. simpl. left. reflexivity.
Qed.

Lemma pool_bounded_executing (n : Z) (p : option pool_state) :
  (0 <= n)%Z -> pool_bounded n p -> (Z.of_nat (executing p) <= n)%Z.
Proof.
  intros Hn. destruct p as [q |]; simpl; [| lia].
  intros (_ & Hr & Ht). lia.
Qed.

(** The one pool a scan creates has the size [max_workers all_ips]. *)
Lemma scan_pools (w : World) (all_ips : list string)
    (target_colos : option (list string)) (max_count : Z)
    (t : list event) (r : res (list (string * string))) (m : Z) :
  scan w all_ips target_colos max_count = Some (t, r) ->
  In (PoolCreate m) t ->
  m = max_workers all_ips.
Proof.
  intros H Hm. destruct all_ips as [| ip rest] eqn:E.
  - rewrite scan_nil in H. injection H as <- _. destruct Hm.
  - rewrite <- E in *.
    apply scan_spec in H as (t' & ms & -> & Ht & _);
      [| subst; discriminate].
    destruct Hm as [Hm | Hm]; [congruence |].
    apply in_app_or in Hm as [Hm | Hm].
    + apply in_map_iff in Hm as (ip' & Hip & _). discriminate.
    + rewrite Forall_forall in Ht. destruct (Ht _ Hm).
Qed.

(** C6. The pool is sized [min(1000, len(all_ips))].  With at least one
    candidate this is between 1 and 1000 and at most the number of
    candidates; every scan that ends starts by creating the pool with
    exactly this number of workers, submits every candidate to it and
    creates no other pool; and with every [wait] finding a pending future
    done there is such a scan.  With no candidate no pool is created.
    However the steps of the worker threads are interleaved with the
    events of a scan, the pool never executes more than
    [min(1000, len(all_ips))] probes at a time. *)
Theorem pool_is_created_with_min_of_cap_and_candidates
    (w : World) (all_ips : list string)
    (target_colos : option (list string)) (max_count : Z) :
  max_workers all_ips = Z.min 1000 (Z.of_nat (List.length all_ips))
  /\ (all_ips <> [] ->
      (1 <= max_workers all_ips <= 1000)%Z
      /\ (max_workers all_ips <= Z.of_nat (List.length all_ips))%Z
      /\ (forall t r,
            scan w all_ips target_colos max_count = Some (t, r) ->
            exists t',
              t = PoolCreate (max_workers all_ips)
                    :: map Submit all_ips ++ t'
              /\ Forall loop_event t')
      /\ (productive w ->
          exists t' ms,
            scan w all_ips target_colos max_count
            = Some (PoolCreate (max_workers all_ips)
                      :: map Submit all_ips ++ t',
                    Ret ms)
            /\ Forall loop_event t'))
  /\ (all_ips = [] ->
      scan w all_ips target_colos max_count = Some ([], Raise ValueError))
  /\ (forall sched r,
        scan w all_ips target_colos max_count
        = Some (coordinator_events sched, r) ->
        Forall (fun p =>
                  (Z.of_nat (executing p)
                   <= Z.min 1000 (Z.of_nat (List.length all_ips)))%Z)
               (pool_states None sched)).
Proof.
  split; [reflexivity |]. split; [| split].
  - intros Hne.
    assert (Hlen : 0 < List.length all_ips)
      by (destruct all_ips; [contradiction | simpl; lia]).
    unfold max_workers, MAX_CONCURRENT_THREADS.
    split; [lia |]. split; [lia |]. split.
    + intros t r H.
      apply scan_spec in H as (t' & ms & -> & Ht & _); [| exact Hne].
      eauto.
    + intros Hw.
      destruct (scan_terminates w all_ips target_colos max_count Hw Hne)
        as (t & ms & E & _).
      pose proof E as E'.
      apply scan_spec in E' as (t' & ms' & -> & Ht & _); [| exact Hne].
      eauto.
  - intros ->. apply scan_nil.
  - intros sched r H.
    assert (Hn : (0 <= max_workers all_ips)%Z)
      by (unfold max_workers, MAX_CONCURRENT_THREADS; lia).
    pose proof (pool_states_bounded (max_workers all_ips) sched Hn
                  (fun m => scan_pools _ _ _ _ _ _ m H) None I) as Hb.
    eapply Forall_impl; [| exact Hb].
    intros p Hp. apply (pool_bounded_executing _ _ Hn Hp).
Qed.

(** C7. Whatever the range texts, the expansion ends without an
    exception; the candidate list holds exactly the addresses of the
    ranges, each once: an address is in it if and only if it lies, as a
    number, in the block of a range parsed as an IPv4 network, and a text
    that does not parse is logged and contributes nothing.  Every scan
    that ends has submitted exactly this list, and with every [wait]
    finding a pending future done the scan does end.  When the range
    list is the one fetched, this list is what the preparation of [main]
    returns, and [main], with a positive quota, ends having submitted
    exactly its addresses, each once. *)
Theorem candidates_are_the_union_of_the_ranges
    (w : World) (ip_ranges : list string) :
  exists t all_ips,
    expand_all w ip_ranges [] = (t, Ret all_ips)
    /\ NoDup (list_of_set w all_ips)
    /\ (forall s,
          In s (list_of_set w all_ips) <->
          exists ip_range,
            In ip_range ip_ranges /\ In s (range_addresses w ip_range))
    /\ (forall ip_range s,
          In s (range_addresses w ip_range) <->
          exists network_address prefixlen v,
            ip_network w ip_range
            = ipaddress.IPv4Network network_address prefixlen
            /\ (network_address <= v
                 < network_address + 2 ^ (32 - prefixlen))%N
            /\ s = ipaddress.to_string v)
    /\ (forall ip_range,
          ip_network w ip_range = ipaddress.NetworkValueError ->
          expand_ip_range w ip_range
          = ([Printed (MsgParseFailed ip_range)], Ret []))
    /\ (forall target_colos max_count t' r,
          scan w (list_of_set w all_ips) target_colos max_count
          = Some (t', r) ->
          submitted t' = list_of_set w all_ips)
    /\ (productive w ->
        forall target_colos max_count,
        exists t' r,
          scan w (list_of_set w all_ips) target_colos max_count
          = Some (t', r)
          /\ submitted t' = list_of_set w all_ips)
    /\ (forall tf,
          fetch_ip_ranges w ip_ranges_url = (tf, Ret ip_ranges) ->
          (exists tc, candidates w = (tc, Ret (list_of_set w all_ips)))
          /\ (productive w ->
              forall args,
                (0 < i args)%Z ->
                exists t' r,
                  main w args = Some (t', r)
                  /\ submitted t' = list_of_set w all_ips
                  /\ NoDup (submitted t'))).
Proof.
  destruct (expand_all_value w ip_ranges []) as [t E].
  exists t, (flat_map (range_addresses w) ip_ranges).
  split; [exact E |]. split; [apply list_of_set_NoDup |].
  split; [| split; [| split; [| split; [| split]]]].
  - intros s. rewrite list_of_set_In, in_flat_map. reflexivity.
  - apply range_addresses_In.
  - intros r Hr. rewrite expand_ip_range_eq, Hr. reflexivity.
  - intros target_colos max_count t' r. apply scan_submitted.
  - intros Hw target_colos max_count.
    set (all_ips := list_of_set w (flat_map (range_addresses w) ip_ranges)).
    assert (Hs : exists t' r,
               scan w all_ips target_colos max_count = Some (t', r)).
    { destruct all_ips as [| ip rest] eqn:Ea.
      - rewrite scan_nil. eauto.
      - destruct (scan_terminates w (ip :: rest) target_colos max_count Hw)
          as (t' & ms & Es & _); [discriminate | eauto]. }
    destruct Hs as (t' & r & Es). exists t', r. split; [exact Es |].
    eapply scan_submitted. exact Es.
  - intros tf Hf.
    destruct (candidates_of_fetch w tf ip_ranges Hf) as (tc & Ec & _).
    split; [eauto |].
    intros Hw args Hq.
    destruct (main_submits_the_candidates w args tc _ Hw Hq Ec)
      as (t' & r & Em & Hs).
    exists t', r. split; [exact Em |]. split; [exact Hs |].
    rewrite Hs. apply list_of_set_NoDup.
Qed.

Lemma matched_code_belongs_to_the_target_set_witness :
  let target_colos := normalise_targets (Some ["lax"]) in
  targets_given target_colos = true
  /\ outcome (check_ip_location (world_answering "colo=LAX") "1.1.1.1"
                target_colos flag_clear)
     = Ret (Some ("1.1.1.1", "LAX"))
  /\ In (Str.upper "LAX") (targets target_colos).
Proof.
  intros target_colos.
  assert (Hg : targets_given target_colos = true) by reflexivity.
  assert (Ho : outcome (check_ip_location (world_answering "colo=LAX")
                          "1.1.1.1" target_colos flag_clear)
               = Ret (Some ("1.1.1.1", "LAX")))
    by (vm_compute; reflexivity).
  split; [exact Hg |]. split; [exact Ho |].
  exact (proj1 (proj2
           (proj2 (matched_code_belongs_to_the_target_set
                     (world_answering "colo=LAX") "1.1.1.1" target_colos
                     flag_clear ("1.1.1.1", "LAX"))
              (Some ["lax"]) eq_refl Hg Ho))).
Defined.

Lemma pool_is_created_with_min_of_cap_and_candidates_witness :
  let all_ips := ["10.0.0.2"; "9.0.0.1"; "10.0.0.1"] in
  all_ips <> []
  /\ productive example_world
  /\ scan example_world all_ips None 1
     = Some (coordinator_events example_run, Ret [("10.0.0.2", "LAX")])
  /\ map executing (pool_states None example_run)
     = [0; 0; 0; 1; 1; 2; 2; 3; 3; 2; 2; 2; 2; 2; 2; 1; 0]
  /\ (exists t' ms,
        scan example_world all_ips None 1
        = Some (PoolCreate 3 :: map Submit all_ips ++ t', Ret ms)
        /\ Forall loop_event t')
  /\ Forall (fun p => (Z.of_nat (executing p) <= 3)%Z)
            (pool_states None example_run).
Proof.
  intros all_ips.
  assert (Hne : all_ips <> []) by discriminate.
  assert (Hw : productive example_world)
    by (apply productive_when_all_done; reflexivity).
  assert (Hs : scan example_world all_ips None 1
               = Some (coordinator_events example_run,
                       Ret [("10.0.0.2", "LAX")]))
    by (vm_compute; reflexivity).
  split; [exact Hne |]. split; [exact Hw |]. split; [exact Hs |].
  split; [vm_compute; reflexivity |].
  pose proof (pool_is_created_with_min_of_cap_and_candidates
                example_world all_ips None 1) as (_ & Hc & _ & Hb).
  split.
  - exact (proj2 (proj2 (proj2 (Hc Hne))) Hw).
  - exact (Hb example_run _ Hs).
Defined.

Lemma candidates_are_the_union_of_the_ranges_witness :
  let ip_ranges := ["10.0.0.0/30"; "9.0.0.0/31"; "10.0.0.0/31"] in
  (exists tf, fetch_ip_ranges example_world ip_ranges_url
              = (tf, Ret ip_ranges))
  /\ productive example_world
  /\ (0 < i example_args)%Z
  /\ exists t' r,
       main example_world example_args = Some (t', r)
       /\ NoDup (submitted t')
       /\ forall s,
            In s (submitted t') <->
            exists ip_range,
              In ip_range ip_ranges
              /\ In s (range_addresses example_world ip_range).
Proof.
  intros ip_ranges.
  assert (Hf : fetch_ip_ranges example_world ip_ranges_url
               = ([HttpGet ip_ranges_url 10], Ret ip_ranges))
    by (vm_compute; reflexivity).
  assert (Hw : productive example_world)
    by (apply productive_when_all_done; reflexivity).
  assert (Hq : (0 < i example_args)%Z) by (simpl; lia).
  split; [eexists; exact Hf |]. split; [exact Hw |]. split; [exact Hq |].
  destruct (candidates_are_the_union_of_the_ranges example_world ip_ranges)
    as (t & all_ips & _ & _ & Hin & _ & _ & _ & _ & Hm).
  destruct (proj2 (Hm _ Hf) Hw example_args Hq) as (t' & r & Em & Hs & Hn).
  exists t', r. split; [exact Em |]. split; [exact Hn |].
  intros s. rewrite Hs. apply Hin.
Defined.
